(** * go-quai: location algebra, address binding, block validation

    A shallow embedding of [common/types.go] (the hierarchical [Location]
    coordinates and the address-to-shard table) and of [core/block_validator.go]
    ([ValidateBody], [ValidateState], [CalcGasLimit]), followed by the
    properties stated about them.

    Conventions of the embedding:
    - a Go [byte]/[uint8] is a [Z] in [0, 256), a [uint64] a [Z] in [0, 2^64),
      and unsigned arithmetic wraps explicitly ([u64], [to_byte]);
    - a Go [int] is a [Z] (the values handled here are far from its bounds);
    - a slice or array of bytes is a [list Z]; a [nil] slice is [[]];
    - [log.Fatal] ends the process: a function that may reach it returns
      in [exec], whose [Fatal] outcome absorbs the rest of the computation;
    - the process-wide variable [NodeLocation] is an explicit argument. *)

From Stdlib Require Import ZArith List String Bool Lia DecimalString.
From stdpp Require Import gmap strings.
Import ListNotations.
Open Scope Z_scope.

(** ** Go runtime conventions *)

Module go.

(** Outcome of a call that may hit [log.Fatal]. *)
Inductive exec (A : Type) : Type :=
| Fatal : exec A
| Ret : A -> exec A.
Arguments Fatal {A}.
Arguments Ret {A} _.

#[global] Instance exec_ret : MRet exec := fun A x => Ret x.
#[global] Instance exec_bind : MBind exec := fun A B f m =>
  match m with
  | Fatal => Fatal
  | Ret x => f x
  end.

#[global] Instance exec_eq_dec {A : Type} `{EqDecision A}
  : EqDecision (exec A).
Proof. solve_decision. Defined.

Definition is_byte (x : Z) : Prop := 0 <= x < 256.
Definition is_uint64 (x : Z) : Prop := 0 <= x < 2 ^ 64.

(** Conversion [byte(x)] of an [int], and [uint64] wrap-around. *)
Definition to_byte (x : Z) : Z := x mod 256.
Definition u64 (x : Z) : Z := x mod 2 ^ 64.

(** [strconv.Itoa]: decimal rendering, with a leading minus sign. *)
Definition Itoa (x : Z) : string := NilZero.string_of_int (Z.to_int x).

(** [bytes.Equal]: same length and the same bytes; [nil] equals empty. *)
Fixpoint bytes_Equal (a b : list Z) : bool :=
  match a, b with
  | [], [] => true
  | x :: a', y :: b' => (x =? y) && bytes_Equal a' b'
  | _, _ => false
  end.

(** The 256 values of a byte, in increasing order. *)
Definition byte_values : list Z := map Z.of_nat (seq 0 256).

(** Indexing [s[i]] inside the bounds of [s]. *)
Definition index (s : list Z) (i : nat) : Z := nth i s 0.

(** [encoding/hex]: the digit table and [hex.Encode], two lowercase
    digits for each byte. *)
Definition hextable : list Z :=
  [48; 49; 50; 51; 52; 53; 54; 55; 56; 57; 97; 98; 99; 100; 101; 102].

Definition hex_Encode (src : list Z) : list Z :=
  flat_map (fun v => [index hextable (Z.to_nat (Z.shiftr v 4));
                      index hextable (Z.to_nat (Z.land v 15))]) src.

(** [bytes.ToLower] on one ASCII byte. *)
Definition ToLower (c : Z) : Z :=
  if (65 <=? c) && (c <=? 90) then c + 32 else c.

End go.
Import go.

(** ** Package [sha3] *)

Module sha3.

(** The legacy Keccak-256 digest of [golang.org/x/crypto/sha3], a library
    outside the repository; taken as a parameter. *)
Class Keccak : Type := { LegacyKeccak256 : list Z -> list Z }.

End sha3.

(** ** Package [common] *)

Module common.

Definition HashLength : nat := 32.
Definition AddressLength : nat := 20.

Definition PRIME_CTX : Z := 0.
Definition REGION_CTX : Z := 1.
Definition ZONE_CTX : Z := 2.

Definition NumRegionsInPrime : Z := 3.
Definition NumZonesInRegion : Z := 3.
Definition HierarchyDepth : Z := 3.

(** [type Hash [HashLength]byte], [type Address [AddressLength]byte],
    [type Location []byte]. *)
Definition Hash : Type := list Z.
Definition Address : Type := list Z.
Definition Location : Type := list Z.

Definition wf_Hash (h : Hash) : Prop :=
  length h = HashLength /\ Forall is_byte h.
Definition wf_Address (a : Address) : Prop :=
  length a = AddressLength /\ Forall is_byte a.

(** [addrPrefixRange] and its constructor. *)
Record addrPrefixRange : Type := { lo : Z; hi : Z }.
Definition NewRange (l h : Z) : addrPrefixRange := {| lo := l; hi := h |}.

(** The table filled by [init()], in the order of its assignments. *)
Definition locationToPrefixRange : gmap string addrPrefixRange :=
  <["hydra3" := NewRange 120 129]> (
  <["hydra2" := NewRange 110 119]> (
  <["hydra1" := NewRange 100 109]> (
  <["hydra" := NewRange 90 99]> (
  <["paxos3" := NewRange 80 89]> (
  <["paxos2" := NewRange 70 79]> (
  <["paxos1" := NewRange 60 69]> (
  <["paxos" := NewRange 50 59]> (
  <["cyprus3" := NewRange 40 49]> (
  <["cyprus2" := NewRange 30 39]> (
  <["cyprus1" := NewRange 20 29]> (
  <["cyprus" := NewRange 10 19]> (
  <["prime" := NewRange 0 9]> ∅)))))))))))).

(** [Address.SetBytes]: [b] cropped from the left, copied right-aligned. *)
Definition Address_SetBytes (a : Address) (b : list Z) : Address :=
  let b := if (AddressLength <? length b)%nat
           then skipn (length b - AddressLength) b else b in
  firstn (AddressLength - length b) a ++ b.

Definition BytesToAddress (b : list Z) : Address :=
  Address_SetBytes (repeat 0 AddressLength) b.

Definition ZeroAddr : Address := BytesToAddress [0].

Definition Location_Region (loc : Location) : Z :=
  if (1 <=? length loc)%nat then index loc (Z.to_nat (REGION_CTX - 1)) else -1.

Definition Location_HasRegion (loc : Location) : bool :=
  Location_Region loc >=? 0.

Definition Location_Zone (loc : Location) : Z :=
  if (2 <=? length loc)%nat then index loc (Z.to_nat (ZONE_CTX - 1)) else -1.

Definition Location_HasZone (loc : Location) : bool :=
  Location_Zone loc >=? 0.

Definition Location_AssertValid (loc : Location) : exec unit :=
  if negb (Location_HasRegion loc) && Location_HasZone loc then Fatal
  else if Location_Region loc >=? NumRegionsInPrime then Fatal
  else if Location_Zone loc >=? NumZonesInRegion then Fatal
  else Ret tt.

Definition Location_Context (loc : Location) : exec Z :=
  _ ← Location_AssertValid loc;
  if Location_Zone loc >=? 0 then Ret ZONE_CTX
  else if Location_Region loc >=? 0 then Ret REGION_CTX
  else Ret PRIME_CTX.

Definition Location_DomLocation (loc : Location) : Location :=
  if (length loc <? 1)%nat then [] else firstn (length loc - 1) loc.

Definition Location_SubIndex (NodeLocation loc : Location) : exec Z :=
  ctx ← Location_Context NodeLocation;
  if ctx =? PRIME_CTX then Ret (Location_Region loc)
  else if ctx =? REGION_CTX then Ret (Location_Zone loc)
  else Ret (-1).

Definition Location_SubInSlice (loc slice : Location) : Location :=
  if (length slice <=? length loc)%nat then []
  else loc ++ [index slice (length loc)].

Definition Location_Equal (loc cmp : Location) : bool := bytes_Equal loc cmp.

Definition Location_InSameSliceAs (loc cmp : Location) : bool :=
  let shorter := if (length cmp <? length loc)%nat then cmp else loc in
  let longer := if (length cmp <? length loc)%nat then loc else cmp in
  Location_Equal shorter (firstn (length shorter) longer).

Definition Location_Name (loc : Location) : exec string :=
  let regionName :=
    if Location_Region loc =? 0 then "cyprus"
    else if Location_Region loc =? 1 then "paxos"
    else if Location_Region loc =? 2 then "hydra"
    else "unknownregion" in
  let zoneNum := Itoa (Location_Zone loc + 1) in
  ctx ← Location_Context loc;
  if ctx =? PRIME_CTX then Ret "prime"
  else if ctx =? REGION_CTX then Ret regionName
  else if ctx =? ZONE_CTX then Ret (regionName +:+ zoneNum)
  else Ret "invalid-location".

(** The loop of [CommonDom]: [k] iterations remain, [i] is the index. *)
Fixpoint CommonDom_loop (loc cmp : Location) (k i : nat) (common : Location)
  : Location :=
  match k with
  | O => common
  | S k' =>
      if index loc i =? index cmp i
      then CommonDom_loop loc cmp k' (S i) (common ++ [index loc i])
      else common
  end.

Definition Location_CommonDom (loc cmp : Location) : Location :=
  let shorterLen :=
    if (length cmp <? length loc)%nat then length cmp else length loc in
  CommonDom_loop loc cmp shorterLen 0%nat [].

Definition Location_ContainsAddress (l : Location) (a : Address) : exec bool :=
  let prefix := index a 0 in
  name ← Location_Name l;
  match locationToPrefixRange !! name with
  | None => Fatal
  | Some prefixRange =>
      Ret ((prefix >=? lo prefixRange) && (prefix <=? hi prefixRange))
  end.

Definition Address_IsInChainScope (NodeLocation : Location) (a : Address)
  : exec bool :=
  if bytes_Equal a ZeroAddr then Ret true
  else Location_ContainsAddress NodeLocation a.

(** The inner loop of [Address.Location] over the zones of one region:
    [k] iterations remain, [z] is the loop counter.  [Some l] is the
    early [return &l]; [None] means the loop ran to its end. *)
Fixpoint Location_zones (a : Address) (R Zn D r : Z) (k : nat) (z : Z)
  : exec (option Location) :=
  match k with
  | O => Ret None
  | S k' =>
      let l := [to_byte (Z.rem (r + R) D); to_byte (Z.rem (z + Zn) D)] in
      b ← Location_ContainsAddress l a;
      if b : bool then Ret (Some l)
      else Location_zones a R Zn D r k' (z + 1)
  end.

(** The outer loop over the regions, threading [primeChecked]. *)
Fixpoint Location_regions (a : Address) (R Zn D : Z) (k : nat) (r : Z)
  (primeChecked : bool) : exec (option Location) :=
  match k with
  | O => Ret None
  | S k' =>
      found ← Location_zones a R Zn D r (Z.to_nat NumZonesInRegion) 0;
      match found with
      | Some l => Ret (Some l)
      | None =>
          let l := [to_byte (Z.rem (r + R) D)] in
          b ← Location_ContainsAddress l a;
          if b : bool then Ret (Some l)
          else if negb primeChecked then
            b ← Location_ContainsAddress [] a;
            if b : bool then Ret (Some [])
            else Location_regions a R Zn D k' (r + 1) true
          else Location_regions a R Zn D k' (r + 1) primeChecked
      end
  end.

(** [Address.Location]; [None] is the [nil] pointer. *)
Definition Address_Location (NodeLocation : Location) (a : Address)
  : exec (option Location) :=
  let R := if Location_HasRegion NodeLocation
           then Location_Region NodeLocation else 0 in
  let Zn := if Location_HasZone NodeLocation
            then Location_Zone NodeLocation else 0 in
  let D := HierarchyDepth in
  Location_regions a R Zn D (Z.to_nat NumRegionsInPrime) 0 false.

(** [Hash.SetBytes], [BytesToHash], [Hash.Bytes]. *)
Definition Hash_SetBytes (h : Hash) (b : list Z) : Hash :=
  let b := if (HashLength <? length b)%nat
           then skipn (length b - HashLength) b else b in
  firstn (HashLength - length b) h ++ b.

Definition BytesToHash (b : list Z) : Hash :=
  Hash_SetBytes (repeat 0 HashLength) b.

Definition Hash_Bytes (h : Hash) : list Z := h.

(** [Address.Bytes] and [Address.Hash]. *)
Definition Address_Bytes (a : Address) : list Z := a.

Definition Address_Hash (a : Address) : Hash := BytesToHash a.

(** [Address.hex]: the two bytes of "0x", then the digits. *)
Definition Address_hex (a : Address) : list Z :=
  [48; 120] ++ hex_Encode a.

(** The loop of [checksumHex]: [k] iterations remain, [i] is the index;
    [57] is the digit nine. *)
Fixpoint checksum_loop (hash buf : list Z) (k i : nat) : list Z :=
  match k with
  | O => buf
  | S k' =>
      let hashByte := index hash ((i - 2) / 2) in
      let hashByte := if (i mod 2 =? 0)%nat
                      then Z.shiftr hashByte 4 else Z.land hashByte 15 in
      let buf := if (index buf i >? 57) && (hashByte >? 7)
                 then <[i := to_byte (index buf i - 32)]> buf else buf in
      checksum_loop hash buf k' (S i)
  end.

Definition Address_checksumHex `{sha3.Keccak} (a : Address) : list Z :=
  let buf := Address_hex a in
  let hash := sha3.LegacyKeccak256 (skipn 2 buf) in
  checksum_loop hash buf (length buf - 2) 2.

(** [Location.RPCMarshal]: each coordinate widened to a [uint64]. *)
Definition Location_RPCMarshal (l : Location) : list Z :=
  fold_left (fun res i => res ++ [i]) l [].

(** *** Notions used to state the properties

    None of what follows is code of the package: these are the notions of
    the specification in which the properties below are stated. *)

(** A location of the data model: at most two coordinates, each below
    the branching factor of its tier. *)
Definition valid_Location (loc : Location) : Prop :=
  match loc with
  | [] => True
  | [r] => 0 <= r < NumRegionsInPrime
  | [r; z] => 0 <= r < NumRegionsInPrime /\ 0 <= z < NumZonesInRegion
  | _ => False
  end.

(** [a] is a prefix of [b]; [slice] strictly extends [loc]. *)
Definition is_prefix (a b : Location) : Prop := exists k, b = a ++ k.
Definition strictly_extends (slice loc : Location) : Prop :=
  exists k, k <> [] /\ slice = loc ++ k.

(** The longest common prefix of two coordinate paths, by recursion on
    the paths. *)
Fixpoint common_prefix (a b : Location) : Location :=
  match a, b with
  | x :: a', y :: b' => if x =? y then x :: common_prefix a' b' else []
  | _, _ => []
  end.

(** The thirteen valid locations: prime, then each region followed by
    its zones. *)
Definition all_locations : list Location :=
  [ [];
    [0]; [0; 0]; [0; 1]; [0; 2];
    [1]; [1; 0]; [1; 1]; [1; 2];
    [2]; [2; 0]; [2; 1]; [2; 2] ].

(** The partition of the first-byte space in closed form: prime owns
    0-9; region [r] owns the ten values from [10 + 40 r]; zone [(r, z)]
    the ten values from [20 + 40 r + 10 z]; 130 and above are unowned. *)
Definition location_of_prefix (p : Z) : option Location :=
  if p <? 10 then Some []
  else if p <? 130 then
    let r := (p - 10) / 40 in
    let s := ((p - 10) mod 40) / 10 in
    if s =? 0 then Some [r] else Some [r; s - 1]
  else None.

End common.
Import common.

(** ** Package [params] *)

Module params.

(** The protocol constants [GasLimitBoundDivisor] and [MinGasLimit] are
    declared in [params/protocol_params.go], outside the sources at hand;
    both are [uint64] and are taken as parameters. *)
Class Constants : Type := {
  GasLimitBoundDivisor : Z;
  MinGasLimit : Z
}.

(** What Go guarantees of them: both fit a [uint64], and the divisor of a
    constant division is not zero. *)
Definition wf_Constants (c : Constants) : Prop :=
  0 < GasLimitBoundDivisor < 2 ^ 64 /\ 0 <= MinGasLimit < 2 ^ 64.

(** Values of the two constants to run examples on: the divisor 1024 of
    the specification's worked example and a minimum of 5000 (the
    specification names no value).  What is proved for all constants does
    not depend on them. *)
Definition example_Constants : Constants :=
  {| GasLimitBoundDivisor := 1024; MinGasLimit := 5000 |}.

End params.

(** ** Package [types], as far as the validator reads it *)

Module types.

(** Blocks, headers and transactions are declared in [core/types], outside
    the sources at hand.  The validator reads them through their methods
    only; the methods, the root computations and the two constants are
    taken as parameters. *)
Class Chain : Type := {
  Transaction : Type;
  Header : Type;
  Block : Type;
  (* methods of a block *)
  Block_Hash : Block -> Hash;
  Block_NumberU64 : Block -> Z;
  Block_ParentHash : Block -> Hash;
  Block_Header : Block -> Header;
  Block_Uncles : Block -> list Header;
  Block_Transactions : Block -> list Transaction;
  Block_ExtTransactions : Block -> list Transaction;
  Block_SubManifest : Block -> list Hash;
  Block_GasUsed : Block -> Z;
  (* methods of a header *)
  Header_UncleHash : Header -> Hash;
  Header_TxHash : Header -> Hash;
  Header_EtxHash : Header -> Hash;
  Header_EtxRollupHash : Header -> Hash;
  Header_ManifestHash : Header -> Z -> Hash;
  Header_ReceiptHash : Header -> Hash;
  Header_Root : Header -> Hash;
  Header_Bloom : Header -> list Z;
  Header_Number : Header -> Z;
  (* constants *)
  EmptyRootHash : Hash;
  ReceiptStatusSuccessful : Z;
  (* root computations *)
  CalcUncleHash : list Header -> Hash;
  DeriveSha_Transactions : list Transaction -> Hash;
  DeriveSha_BlockManifest : list Hash -> Hash
}.

(** [types.Receipt]: the two fields the validator reads. *)
Record Receipt `{Chain} : Type := {
  Status : Z;
  Etxs : list Transaction
}.

(** Computations over receipts. *)
Class ReceiptOps `{Chain} : Type := {
  CreateBloom : list Receipt -> list Z;
  DeriveSha_Receipts : list Receipt -> Hash
}.

End types.

(** ** Package [consensus] *)

Module consensus.

(** The engine interface, reduced to the one method the validator calls.
    [None] is a [nil] error. *)
Class Engine `{types.Chain} : Type := {
  EngineError : Type;
  VerifyUncles : types.Block -> option EngineError
}.

End consensus.

(** ** Package [core]: the block validator *)

Module core.
Import types consensus.

(** What the validator reaches through [v.hc], [v.config] and the state
    database handed to [ValidateState]. *)
Class Backend `{Chain} : Type := {
  StateDB : Type;
  StoreError : Type;
  HasBlockAndState : Hash -> Z -> bool;      (* v.hc.bc.processor *)
  HasBlock : Hash -> Z -> bool;              (* v.hc.bc *)
  CollectEtxRollup : Block -> option (list Transaction);
  IsEIP158 : Z -> bool;                      (* v.config *)
  IntermediateRoot : StateDB -> bool -> Hash * option StoreError
}.

Section Validator.
Context `{C : Chain} `{!ReceiptOps} `{!Engine} `{!Backend}.

(** The errors of the validator.  The sentinel errors are constructors
    without arguments; an error built by [fmt.Errorf] carries the values
    it prints; an error of a collaborator is passed on inside
    [ErrEngine] or [ErrStore]. *)
Inductive error : Type :=
| ErrKnownBlock
| ErrBadSubManifest
| ErrUnknownAncestor
| ErrPrunedAncestor
| ErrEngine (err : EngineError)
| ErrUncleRoot (have want : Hash)
| ErrTxRoot (have want : Hash)
| ErrEtxRoot (have want : Hash)
| ErrGasUsed (remote local : Z)
| ErrBloom (remote local : list Z)
| ErrReceiptRoot (remote local : Hash)
| ErrStore (err : StoreError)
| ErrMerkleRoot (remote local : Hash)
| ErrEtxHash (remote local : Hash)
| ErrEtxRollup
| ErrEtxRollupHash (remote local : Hash).

(** Comparison [!=] of two hashes (arrays of bytes). *)
Definition Hash_neq (h1 h2 : Hash) : bool := negb (bytes_Equal h1 h2).

(** [ValidateBody]; [Ret None] is the [nil] error. *)
Definition ValidateBody (NodeLocation : Location) (block : Block)
  : exec (option error) :=
  nodeCtx ← Location_Context NodeLocation;
  if HasBlockAndState (Block_Hash block) (Block_NumberU64 block)
  then Ret (Some ErrKnownBlock)
  else
  let header := Block_Header block in
  match VerifyUncles block with
  | Some err => Ret (Some (ErrEngine err))
  | None =>
  let hash := CalcUncleHash (Block_Uncles block) in
  if Hash_neq hash (Header_UncleHash header)
  then Ret (Some (ErrUncleRoot hash (Header_UncleHash header)))
  else
  let hash := DeriveSha_Transactions (Block_Transactions block) in
  if Hash_neq hash (Header_TxHash header)
  then Ret (Some (ErrTxRoot hash (Header_TxHash header)))
  else
  let hash := DeriveSha_Transactions (Block_ExtTransactions block) in
  if Hash_neq hash (Header_EtxHash header)
  then Ret (Some (ErrEtxRoot hash (Header_EtxHash header)))
  else
  let subManifestHash := DeriveSha_BlockManifest (Block_SubManifest block) in
  if (nodeCtx <? ZONE_CTX)
     && (bytes_Equal subManifestHash EmptyRootHash
         || Hash_neq subManifestHash (Header_ManifestHash header (nodeCtx + 1)))
  then Ret (Some ErrBadSubManifest)
  else
  if negb (HasBlockAndState (Block_ParentHash block)
                            (u64 (Block_NumberU64 block - 1)))
  then
    if negb (HasBlock (Block_ParentHash block)
                      (u64 (Block_NumberU64 block - 1)))
    then Ret (Some ErrUnknownAncestor)
    else Ret (Some ErrPrunedAncestor)
  else Ret None
  end.

(** The inner loop of the emission pass: [append] one by one. *)
Fixpoint append_etxs (emittedEtxs etxs : list Transaction)
  : list Transaction :=
  match etxs with
  | [] => emittedEtxs
  | etx :: rest => append_etxs (emittedEtxs ++ [etx]) rest
  end.

(** The outer loop over the receipts. *)
Fixpoint collect_emitted (emittedEtxs : list Transaction)
  (receipts : list Receipt) : list Transaction :=
  match receipts with
  | [] => emittedEtxs
  | receipt :: rest =>
      if Status receipt =? ReceiptStatusSuccessful
      then collect_emitted (append_etxs emittedEtxs (Etxs receipt)) rest
      else collect_emitted emittedEtxs rest
  end.

(** [ValidateState]; [None] is the [nil] error. *)
Definition ValidateState (block : Block) (statedb : StateDB)
  (receipts : list Receipt) (usedGas : Z) : option error :=
  let header := Block_Header block in
  if negb (Block_GasUsed block =? usedGas)
  then Some (ErrGasUsed (Block_GasUsed block) usedGas)
  else
  let rbloom := CreateBloom receipts in
  if negb (bytes_Equal rbloom (Header_Bloom header))
  then Some (ErrBloom (Header_Bloom header) rbloom)
  else
  let receiptSha := DeriveSha_Receipts receipts in
  if Hash_neq receiptSha (Header_ReceiptHash header)
  then Some (ErrReceiptRoot (Header_ReceiptHash header) receiptSha)
  else
  let '(root, err) :=
    IntermediateRoot statedb (IsEIP158 (Header_Number header)) in
  if Hash_neq (Header_Root header) root || bool_decide (is_Some err)
  then
    match err with
    | Some e => Some (ErrStore e)
    | None => Some (ErrMerkleRoot (Header_Root header) root)
    end
  else
  let emittedEtxs := collect_emitted [] receipts in
  let etxHash := DeriveSha_Transactions emittedEtxs in
  if Hash_neq etxHash (Header_EtxHash header)
  then Some (ErrEtxHash (Header_EtxHash header) etxHash)
  else
  match CollectEtxRollup block with
  | None => Some ErrEtxRollup
  | Some etxRollup =>
      let etxRollupHash := DeriveSha_Transactions etxRollup in
      if Hash_neq etxRollupHash (Header_EtxRollupHash header)
      then Some (ErrEtxRollupHash (Header_EtxRollupHash header) etxRollupHash)
      else None
  end.

(** The engine accepts the uncles and the three roots recomputed from
    the body are the ones the header declares: the checks that stand
    between the known-block test and the manifest test. *)
Definition body_roots_ok (block : Block) : Prop :=
  let header := Block_Header block in
  VerifyUncles block = None
  /\ CalcUncleHash (Block_Uncles block) = Header_UncleHash header
  /\ DeriveSha_Transactions (Block_Transactions block) = Header_TxHash header
  /\ DeriveSha_Transactions (Block_ExtTransactions block)
     = Header_EtxHash header.

(** The manifest recomputed from the body is the empty-list root, or
    is not the one the header declares for the subordinate tier. *)
Definition bad_sub_manifest (nodeCtx : Z) (block : Block) : Prop :=
  let subManifestHash :=
    DeriveSha_BlockManifest (Block_SubManifest block) in
  subManifestHash = EmptyRootHash
  \/ subManifestHash
     <> Header_ManifestHash (Block_Header block) (nodeCtx + 1).

(** The checks of [ValidateState] that come before the emission check:
    gas used, bloom, receipt root and state root. *)
Definition state_roots_ok (block : Block) (statedb : StateDB)
  (receipts : list Receipt) (usedGas : Z) : Prop :=
  let header := Block_Header block in
  Block_GasUsed block = usedGas
  /\ CreateBloom receipts = Header_Bloom header
  /\ DeriveSha_Receipts receipts = Header_ReceiptHash header
  /\ IntermediateRoot statedb (IsEIP158 (Header_Number header))
     = (Header_Root header, None).

(** The emission list in the words of the specification: the external
    transactions of the successful receipts, in receipt order. *)
Definition emitted_spec (receipts : list Receipt) : list Transaction :=
  concat (map Etxs
    (List.filter (fun r => Status r =? ReceiptStatusSuccessful) receipts)).

End Validator.

(** [CalcGasLimit], in [uint64] arithmetic. *)
Definition CalcGasLimit `{params.Constants} (parentGasLimit desiredLimit : Z)
  : Z :=
  let delta := u64 (parentGasLimit / params.GasLimitBoundDivisor - 1) in
  let limit := parentGasLimit in
  let desiredLimit :=
    if desiredLimit <? params.MinGasLimit
    then params.MinGasLimit else desiredLimit in
  if limit <? desiredLimit then
    let limit := u64 (parentGasLimit + delta) in
    if limit >? desiredLimit then desiredLimit else limit
  else if limit >? desiredLimit then
    let limit := u64 (parentGasLimit - delta) in
    if limit <? desiredLimit then desiredLimit else limit
  else limit.

End core.

(** ** A small chain to run the validator on *)

Module example.
Import types consensus core.

(** Transactions are numbers; the root of a list is the list itself,
    which makes the root computations injective; the empty-list root is
    the empty list. *)
Record header : Type := {
  h_uncle : Hash; h_tx : Hash; h_etx : Hash; h_rollup : Hash;
  h_manifest : list Hash; h_receipt : Hash; h_root : Hash;
  h_bloom : list Z; h_number : Z
}.

Record block : Type := {
  b_hash : Hash; b_parent : Hash; b_header : header;
  b_uncles : list header; b_txs : list Z; b_etxs : list Z;
  b_manifest : list Hash; b_gasUsed : Z
}.

#[export] Instance chain : Chain := {|
  Transaction := Z;
  Header := header;
  Block := block;
  Block_Hash := b_hash;
  Block_NumberU64 := fun b => h_number (b_header b);
  Block_ParentHash := b_parent;
  Block_Header := b_header;
  Block_Uncles := b_uncles;
  Block_Transactions := b_txs;
  Block_ExtTransactions := b_etxs;
  Block_SubManifest := b_manifest;
  Block_GasUsed := b_gasUsed;
  Header_UncleHash := h_uncle;
  Header_TxHash := h_tx;
  Header_EtxHash := h_etx;
  Header_EtxRollupHash := h_rollup;
  Header_ManifestHash := fun h ctx => nth (Z.to_nat ctx) (h_manifest h) [];
  Header_ReceiptHash := h_receipt;
  Header_Root := h_root;
  Header_Bloom := h_bloom;
  Header_Number := h_number;
  EmptyRootHash := [];
  ReceiptStatusSuccessful := 1;
  CalcUncleHash := map h_number;
  DeriveSha_Transactions := fun txs => txs;
  DeriveSha_BlockManifest := fun m => concat m
|}.

#[export] Instance receipt_ops : ReceiptOps := {|
  CreateBloom := fun receipts => map Status receipts;
  DeriveSha_Receipts := fun receipts => map Status receipts
|}.

(** The engine refuses more than two uncles. *)
#[export] Instance engine : Engine := {|
  EngineError := unit;
  VerifyUncles := fun b =>
    if (2 <? length (b_uncles b))%nat then Some tt else None
|}.

(** The store: the blocks it has, each with or without its state.  A
    state database is its own root; the rollup of a block is empty. *)
#[export] Instance backend (store : list (Hash * Z * bool)) : Backend := {|
  StateDB := Hash;
  StoreError := unit;
  HasBlockAndState := fun h n =>
    existsb (fun e => bytes_Equal (fst (fst e)) h && (snd (fst e) =? n)
                      && snd e) store;
  HasBlock := fun h n =>
    existsb (fun e => bytes_Equal (fst (fst e)) h && (snd (fst e) =? n))
            store;
  CollectEtxRollup := fun _ => Some [];
  IsEIP158 := fun _ => true;
  IntermediateRoot := fun db _ => (db, None)
|}.

(** Block 7 of a region chain, with one transaction, one external
    transaction and a manifest of one digest, declared as computed. *)
Definition header7 : header := {|
  h_uncle := []; h_tx := [11]; h_etx := [12]; h_rollup := [];
  h_manifest := [[]; []; [5; 5]]; h_receipt := [1; 0]; h_root := [9];
  h_bloom := [1; 0]; h_number := 7
|}.

Definition block7 : block := {|
  b_hash := [7]; b_parent := [6]; b_header := header7;
  b_uncles := []; b_txs := [11]; b_etxs := [12];
  b_manifest := [[5; 5]]; b_gasUsed := 21000
|}.

(** The same block with an empty manifest in its body. *)
Definition block7_no_manifest : block := {|
  b_hash := [7]; b_parent := [6]; b_header := header7;
  b_uncles := []; b_txs := [11]; b_etxs := [12];
  b_manifest := []; b_gasUsed := 21000
|}.

(** The same block with another transaction in its body than the one
    its header commits to. *)
Definition block7_other_tx : block := {|
  b_hash := [7]; b_parent := [6]; b_header := header7;
  b_uncles := []; b_txs := [99]; b_etxs := [12];
  b_manifest := [[5; 5]]; b_gasUsed := 21000
|}.

(** Two receipts: the first succeeded and emitted 12; the second failed
    and carries 13. *)
Definition receipts7 : list Receipt :=
  [ {| Status := 1; Etxs := [12] |}; {| Status := 0; Etxs := [13] |} ].

(** Receipts of another execution, whose first receipt emitted 14. *)
Definition receipts7_other : list Receipt :=
  [ {| Status := 1; Etxs := [14] |}; {| Status := 0; Etxs := [13] |} ].

(** A digest whose every byte is 255, so that every nibble is above 7. *)
Definition keccak_ones : sha3.Keccak :=
  {| sha3.LegacyKeccak256 := fun _ => repeat 255 32 |}.

(** A block with another transaction than its header commits to and an
    empty manifest in its body. *)
Definition block7_other_tx_no_manifest : block := {|
  b_hash := [7]; b_parent := [6]; b_header := header7;
  b_uncles := []; b_txs := [99]; b_etxs := [12];
  b_manifest := []; b_gasUsed := 21000
|}.

(** A store that already has block 7 with its state. *)
Definition store_known : list (Hash * Z * bool) :=
  [([6], 6, true); ([7], 7, true)].

(** Stores: the parent with its state; the parent pruned; no parent. *)
Definition store_full : list (Hash * Z * bool) := [([6], 6, true)].
Definition store_pruned : list (Hash * Z * bool) := [([6], 6, false)].
Definition store_empty : list (Hash * Z * bool) := [].

End example.

(** * Properties *)

(** Closes a comparison of two numerals once evaluated. *)
Ltac closed_cmp :=
  first [reflexivity | let E := fresh in intros E; discriminate E].

(** ** Byte slices *)

Lemma bytes_Equal_eq (a b : list Z) : bytes_Equal a b = true <-> a = b.
Proof.
  revert b; induction a as [|x a IH]; intros [|y b]; simpl; split;
    try congruence; try reflexivity.
  - intros [Hxy Hab]%andb_true_iff. apply Z.eqb_eq in Hxy.
    apply IH in Hab. congruence.
  - intros [= -> ->]. rewrite Z.eqb_refl. simpl. now apply IH.
Qed.

Lemma bytes_Equal_refl (a : list Z) : bytes_Equal a a = true.
Proof. now apply bytes_Equal_eq. Qed.

Lemma bytes_Equal_sym (a b : list Z) : bytes_Equal a b = bytes_Equal b a.
Proof.
  destruct (bytes_Equal a b) eqn:E1, (bytes_Equal b a) eqn:E2; try reflexivity.
  - apply bytes_Equal_eq in E1. subst. rewrite bytes_Equal_refl in E2.
    discriminate.
  - apply bytes_Equal_eq in E2. subst. rewrite bytes_Equal_refl in E1.
    discriminate.
Qed.

Lemma firstn_is_prefix (s l : Location) :
  s = firstn (length s) l <-> is_prefix s l.
Proof.
  split.
  - intros E. exists (skipn (length s) l).
    transitivity (firstn (length s) l ++ skipn (length s) l);
      [symmetry; apply firstn_skipn | now rewrite <- E].
  - intros [k ->]. rewrite firstn_app, Nat.sub_diag, firstn_all. simpl.
    now rewrite app_nil_r.
Qed.

Lemma is_prefix_length (a b : Location) :
  is_prefix a b -> (length a <= length b)%nat.
Proof. intros [k ->]. rewrite length_app. lia. Qed.

Lemma is_prefix_same_length (a b : Location) :
  is_prefix a b -> length a = length b -> a = b.
Proof.
  intros [k ->] E. rewrite length_app in E.
  destruct k; [now rewrite app_nil_r | simpl in E; lia].
Qed.

Lemma is_prefix_refl (a : Location) : is_prefix a a.
Proof. exists []. now rewrite app_nil_r. Qed.

(** ** The coordinate algebra *)

Lemma InSameSliceAs_iff (a b : Location) :
  Location_InSameSliceAs a b = true <-> is_prefix a b \/ is_prefix b a.
Proof.
  unfold Location_InSameSliceAs, Location_Equal.
  destruct (Nat.ltb_spec (length b) (length a)) as [Hlt|Hge];
    rewrite bytes_Equal_eq, firstn_is_prefix.
  - split; [now right|]. intros [H|H]; [|exact H].
    apply is_prefix_length in H. lia.
  - split; [now left|]. intros [H|H]; [exact H|].
    pose proof (is_prefix_length _ _ H) as Hl.
    rewrite (is_prefix_same_length b a H) by lia. apply is_prefix_refl.
Qed.

Lemma common_prefix_nil_r (a : Location) : common_prefix a [] = [].
Proof. now destruct a. Qed.

Lemma skipn_index (l : Location) (i : nat) :
  (i < length l)%nat -> skipn i l = index l i :: skipn (S i) l.
Proof.
  revert i; induction l as [|x l IH]; intros i Hi; simpl in Hi; [lia|].
  destruct i as [|i]; [reflexivity|].
  simpl. unfold index in *. simpl. apply IH. lia.
Qed.

Lemma CommonDom_loop_spec (loc cmp : Location) (k i : nat) (common : Location) :
  (i + k)%nat = Nat.min (length loc) (length cmp) ->
  CommonDom_loop loc cmp k i common
  = common ++ common_prefix (skipn i loc) (skipn i cmp).
Proof.
  revert i common; induction k as [|k IH]; intros i common Hik; simpl.
  - assert (H : (length loc <= i \/ length cmp <= i)%nat) by lia.
    destruct H as [H|H]; rewrite (skipn_all2 _ H); simpl;
      [|rewrite common_prefix_nil_r]; now rewrite app_nil_r.
  - rewrite (skipn_index loc i), (skipn_index cmp i) by lia. simpl.
    destruct (index loc i =? index cmp i); [|now rewrite app_nil_r].
    rewrite IH by lia. now rewrite <- app_assoc.
Qed.

Lemma CommonDom_common_prefix (a b : Location) :
  Location_CommonDom a b = common_prefix a b.
Proof.
  unfold Location_CommonDom.
  rewrite CommonDom_loop_spec; [reflexivity|].
  destruct (Nat.ltb_spec (length b) (length a)); lia.
Qed.

Lemma common_prefix_l (a b : Location) : is_prefix (common_prefix a b) a.
Proof.
  revert b; induction a as [|x a IH]; intros [|y b]; simpl;
    try (now exists []); try (now eexists).
  destruct (x =? y); [|now eexists].
  destruct (IH b) as [k Hk]. exists k. simpl. now rewrite <- Hk.
Qed.

Lemma common_prefix_r (a b : Location) : is_prefix (common_prefix a b) b.
Proof.
  revert b; induction a as [|x a IH]; intros [|y b]; simpl;
    try (now exists []); try (now eexists).
  destruct (Z.eqb_spec x y) as [->|]; [|now eexists].
  destruct (IH b) as [k Hk]. exists k. simpl. now rewrite <- Hk.
Qed.

Lemma common_prefix_greatest (a b c : Location) :
  is_prefix c a -> is_prefix c b -> is_prefix c (common_prefix a b).
Proof.
  revert a b; induction c as [|x c IH]; intros a b [ka ->] [kb ->].
  - now eexists.
  - simpl. rewrite Z.eqb_refl.
    destruct (IH (c ++ ka) (c ++ kb)) as [k Hk]; try (now eexists).
    exists k. simpl. now rewrite <- Hk.
Qed.

Lemma common_prefix_of_prefix (a b : Location) :
  is_prefix a b -> common_prefix a b = a /\ common_prefix b a = a.
Proof.
  intros [k ->]. induction a as [|x a [IH1 IH2]]; simpl.
  - split; [reflexivity | apply common_prefix_nil_r].
  - rewrite Z.eqb_refl. now rewrite IH1, IH2.
Qed.

(** C9. [InSameSliceAs] is reflexive and symmetric and holds exactly when
    one location is a prefix of the other; [CommonDom a b] is the longest
    common prefix of [a] and [b]: a prefix of both, above every other common
    prefix, no longer than the shorter of the two, and equal to [a] exactly
    when [a] is a prefix of [b].  It holds of all coordinate paths, the valid
    ones among them. *)
Theorem same_slice_and_common_dom (a b : Location) :
  Location_InSameSliceAs a a = true
  /\ Location_InSameSliceAs a b = Location_InSameSliceAs b a
  /\ (Location_InSameSliceAs a b = true <-> is_prefix a b \/ is_prefix b a)
  /\ is_prefix (Location_CommonDom a b) a
  /\ is_prefix (Location_CommonDom a b) b
  /\ (forall c, is_prefix c a -> is_prefix c b ->
                is_prefix c (Location_CommonDom a b))
  /\ (length (Location_CommonDom a b) <= Nat.min (length a) (length b))%nat
  /\ (Location_CommonDom a b = a <-> is_prefix a b)
  /\ (Location_CommonDom b a = a <-> is_prefix a b).
Proof.
  repeat split.
  - apply InSameSliceAs_iff. left. apply is_prefix_refl.
  - destruct (Location_InSameSliceAs a b) eqn:E1,
             (Location_InSameSliceAs b a) eqn:E2; try reflexivity.
    + apply InSameSliceAs_iff in E1.
      assert (H : Location_InSameSliceAs b a = true)
        by (apply InSameSliceAs_iff; tauto).
      congruence.
    + apply InSameSliceAs_iff in E2.
      assert (H : Location_InSameSliceAs a b = true)
        by (apply InSameSliceAs_iff; tauto).
      congruence.
  - apply InSameSliceAs_iff.
  - apply InSameSliceAs_iff.
  - rewrite CommonDom_common_prefix. apply common_prefix_l.
  - rewrite CommonDom_common_prefix. apply common_prefix_r.
  - intros c Ha Hb. rewrite CommonDom_common_prefix.
    now apply common_prefix_greatest.
  - rewrite CommonDom_common_prefix.
    pose proof (is_prefix_length _ _ (common_prefix_l a b)).
    pose proof (is_prefix_length _ _ (common_prefix_r a b)). lia.
  - intros E. rewrite <- E at 1. rewrite CommonDom_common_prefix.
    apply common_prefix_r.
  - intros H. rewrite CommonDom_common_prefix.
    now apply common_prefix_of_prefix.
  - intros E. rewrite <- E at 1. rewrite CommonDom_common_prefix.
    apply common_prefix_l.
  - intros H. rewrite CommonDom_common_prefix.
    now apply common_prefix_of_prefix.
Qed.

(** C8. A location of length 0, 1 or 2 whose coordinates are below the
    branching factor is classified by [Context], without a fatal exit, as
    prime, region or zone according to its length; and the dominant of a
    zone location is the region location made of its first coordinate. *)
Theorem Context_matches_length (loc : Location) :
  valid_Location loc ->
  Location_Context loc = Ret (Z.of_nat (length loc))
  /\ (length loc = 0%nat -> Location_Context loc = Ret PRIME_CTX)
  /\ (length loc = 1%nat -> Location_Context loc = Ret REGION_CTX)
  /\ (length loc = 2%nat ->
        Location_Context loc = Ret ZONE_CTX
        /\ Location_DomLocation loc = [index loc 0]
        /\ Location_Context (Location_DomLocation loc) = Ret REGION_CTX).
Proof.
  intros Hv.
  assert (Hctx : forall l, valid_Location l ->
                   Location_Context l = Ret (Z.of_nat (length l))).
  { clear. intros [|r [|z [|x l]]]; simpl; intros Hv; try contradiction.
    - reflexivity.
    - unfold NumRegionsInPrime in Hv.
      unfold Location_Context, Location_AssertValid, Location_HasRegion,
        Location_HasZone, Location_Region, Location_Zone, index,
        NumRegionsInPrime, NumZonesInRegion. simpl.
      destruct (Z.geb_spec r 0); [|lia]. destruct (Z.geb_spec r 3); [lia|].
      reflexivity.
    - unfold NumRegionsInPrime, NumZonesInRegion in Hv.
      unfold Location_Context, Location_AssertValid, Location_HasRegion,
        Location_HasZone, Location_Region, Location_Zone, index,
        NumRegionsInPrime, NumZonesInRegion. simpl.
      destruct (Z.geb_spec r 0); [|lia]. destruct (Z.geb_spec r 3); [lia|].
      destruct (Z.geb_spec z 0); [|lia]. destruct (Z.geb_spec z 3); [lia|].
      reflexivity. }
  split; [now apply Hctx|].
  split; [|split]; intros Hlen;
    try (rewrite Hctx, Hlen by assumption; reflexivity).
  destruct loc as [|r [|z [|x l]]]; try discriminate.
  split; [now rewrite Hctx|]. split; [reflexivity|].
  rewrite Hctx; [reflexivity|]. simpl in *. tauto.
Qed.

Lemma Context_matches_length_witness :
  valid_Location [1; 2]
  /\ Location_Context [1; 2] = Ret ZONE_CTX
  /\ Location_DomLocation [1; 2] = [1].
Proof.
  assert (Hv : valid_Location [1; 2])
    by (simpl; unfold NumRegionsInPrime, NumZonesInRegion; lia).
  split; [exact Hv|].
  destruct (Context_matches_length [1; 2] Hv) as (_ & _ & _ & H).
  destruct (H eq_refl) as (H1 & H2 & _). split; [exact H1 | exact H2].
Defined.

(** C7, as the code has it.  [SubInSlice loc slice] returns a non-empty
    result exactly when [slice] is longer than [loc], whether or not [loc]
    is a prefix of [slice]; the result then has length [len(loc)+1], starts
    with [loc] and ends with the coordinate of [slice] at index [len(loc)];
    otherwise the result is empty.  When [slice] strictly extends [loc] the
    result is defined and is itself a prefix of [slice]. *)
Theorem SubInSlice_defined_iff_deeper (loc slice : Location) :
  (Location_SubInSlice loc slice <> [] <-> (length loc < length slice)%nat)
  /\ ((length loc < length slice)%nat ->
        length (Location_SubInSlice loc slice) = S (length loc)
        /\ firstn (length loc) (Location_SubInSlice loc slice) = loc
        /\ index (Location_SubInSlice loc slice) (length loc)
           = index slice (length loc))
  /\ ((length slice <= length loc)%nat -> Location_SubInSlice loc slice = [])
  /\ (strictly_extends slice loc ->
        Location_SubInSlice loc slice <> []
        /\ is_prefix (Location_SubInSlice loc slice) slice).
Proof.
  assert (Hext : strictly_extends slice loc -> (length loc < length slice)%nat).
  { intros (k & Hk & ->). rewrite length_app.
    destruct k; [congruence | simpl; lia]. }
  unfold Location_SubInSlice.
  destruct (Nat.leb_spec (length slice) (length loc)) as [Hle|Hlt].
  - split; [split; [congruence | lia]|].
    split; [lia|]. split; [reflexivity|].
    intros H%Hext. lia.
  - assert (Hne : loc ++ [index slice (length loc)] <> [])
      by (destruct loc; discriminate).
    split; [split; [lia | intros _; exact Hne]|].
    split; [|split; [lia|]].
    + intros _. split; [rewrite length_app; simpl; lia|]. split.
      * rewrite firstn_app, Nat.sub_diag, firstn_all. simpl.
        now rewrite app_nil_r.
      * unfold index. rewrite app_nth2, Nat.sub_diag by lia. reflexivity.
    + intros (k & Hk & ->). split; [exact Hne|].
      destruct k as [|x k]; [congruence|].
      unfold index. rewrite app_nth2, Nat.sub_diag by lia. simpl.
      exists k. now rewrite <- app_assoc.
Qed.

Lemma SubInSlice_defined_iff_deeper_witness :
  length (Location_SubInSlice [0] [0; 2]) = 2%nat
  /\ Location_SubInSlice [0; 2] [0] = [].
Proof.
  destruct (SubInSlice_defined_iff_deeper [0] [0; 2]) as (_ & H & _).
  destruct (SubInSlice_defined_iff_deeper [0; 2] [0]) as (_ & _ & H' & _).
  split.
  - apply H. simpl. lia.
  - apply H'. simpl. lia.
Defined.

(** C7, as stated, fails: region 1 asking for its subordinate in the slice
    of zone (0,2), which it does not dominate, gets the defined answer
    zone (1,2). *)
Lemma SubInSlice_outside_slice :
  Location_SubInSlice [1] [0; 2] = [1; 2]
  /\ Location_SubInSlice [1] [0; 2] <> []
  /\ ~ strictly_extends [0; 2] [1].
Proof.
  split; [reflexivity|]. split; [discriminate|].
  intros [k [_ Hk]]. discriminate.
Qed.

(** ** The address-to-shard binding *)

Lemma byte_values_forall (P : Z -> bool) :
  forallb P byte_values = true -> forall p, is_byte p -> P p = true.
Proof.
  intros H p [Hlo Hhi]. rewrite forallb_forall in H. apply H.
  unfold byte_values. rewrite <- (Z2Nat.id p) by lia.
  apply in_map, in_seq. lia.
Qed.

Lemma valid_Location_enum (l : Location) :
  valid_Location l <-> In l all_locations.
Proof.
  split.
  - destruct l as [|r [|z [|x l]]]; simpl; unfold NumRegionsInPrime,
      NumZonesInRegion; intros H; try contradiction.
    + now left.
    + assert (E : r = 0 \/ r = 1 \/ r = 2) by lia.
      destruct E as [ -> | [ -> | -> ] ]; tauto.
    + assert (E : r = 0 \/ r = 1 \/ r = 2) by lia.
      assert (E' : z = 0 \/ z = 1 \/ z = 2) by lia.
      destruct E as [ -> | [ -> | -> ] ], E' as [ -> | [ -> | -> ] ]; tauto.
  - simpl. intros H.
    repeat (destruct H as [ <- | H ];
            [simpl; unfold NumRegionsInPrime, NumZonesInRegion;
             first [exact I | lia]|]).
    contradiction.
Qed.

(** What [ContainsAddress] reads of the address is its first byte. *)
Lemma ContainsAddress_first_byte (l : Location) (a : Address) :
  Location_ContainsAddress l a = Location_ContainsAddress l [index a 0].
Proof. reflexivity. Qed.

Lemma Location_regions_unfold (a : Address) (R Zn D : Z) (k : nat) (r : Z)
  (pc : bool) :
  Location_regions a R Zn D (S k) r pc =
  found ← Location_zones a R Zn D r (Z.to_nat NumZonesInRegion) 0;
  match found with
  | Some l => Ret (Some l)
  | None =>
      let l := [to_byte (Z.rem (r + R) D)] in
      b ← Location_ContainsAddress l a;
      if b : bool then Ret (Some l)
      else if negb pc then
        b ← Location_ContainsAddress [] a;
        if b : bool then Ret (Some [])
        else Location_regions a R Zn D k (r + 1) true
      else Location_regions a R Zn D k (r + 1) pc
  end.
Proof. reflexivity. Qed.

Lemma Location_zones_first_byte (a : Address) (R Zn D r : Z) (k : nat) (z : Z) :
  Location_zones a R Zn D r k z = Location_zones [index a 0] R Zn D r k z.
Proof.
  revert z; induction k as [|k IH]; intros z; simpl; [reflexivity|].
  rewrite ContainsAddress_first_byte.
  destruct (Location_ContainsAddress _ _) as [|[|]]; simpl;
    [reflexivity | reflexivity | apply IH].
Qed.

Lemma Location_regions_first_byte (a : Address) (R Zn D : Z) (k : nat) (r : Z)
  (pc : bool) :
  Location_regions a R Zn D k r pc = Location_regions [index a 0] R Zn D k r pc.
Proof.
  revert r pc; induction k as [|k IH]; intros r pc; [reflexivity|].
  rewrite !Location_regions_unfold, Location_zones_first_byte.
  destruct (Location_zones _ _ _ _ _ _ _) as [|[l|]]; try reflexivity.
  cbv zeta. unfold mbind, exec_bind.
  rewrite (ContainsAddress_first_byte _ a).
  destruct (Location_ContainsAddress _ _) as [|[|]]; try reflexivity.
  destruct pc; cbn [negb]; [apply IH|].
  rewrite (ContainsAddress_first_byte _ a).
  destruct (Location_ContainsAddress _ _) as [|[|]]; try reflexivity.
  apply IH.
Qed.

(** The search wraps its indices modulo the depth: only the residues of the
    node's own coordinates matter. *)
Lemma rem_shift (x y : Z) :
  0 <= x -> 0 <= y -> Z.rem (x + y) 3 = Z.rem (x + y mod 3) 3.
Proof.
  intros Hx Hy. pose proof (Z.mod_pos_bound y 3 eq_refl).
  rewrite !Z.rem_mod_nonneg by lia. now rewrite Zplus_mod_idemp_r.
Qed.

Lemma Location_zones_mod (a : Address) (R Zn r : Z) (k : nat) (z : Z) :
  0 <= R -> 0 <= Zn -> 0 <= r -> 0 <= z ->
  Location_zones a R Zn 3 r k z
  = Location_zones a (R mod 3) (Zn mod 3) 3 r k z.
Proof.
  intros HR HZ Hr. revert z; induction k as [|k IH]; intros z Hz; simpl;
    [reflexivity|].
  rewrite <- (rem_shift r R), <- (rem_shift z Zn) by assumption.
  destruct (Location_ContainsAddress _ _) as [|[|]]; simpl;
    [reflexivity | reflexivity | apply IH; lia].
Qed.

Lemma Location_regions_mod (a : Address) (R Zn : Z) (k : nat) (r : Z)
  (pc : bool) :
  0 <= R -> 0 <= Zn -> 0 <= r ->
  Location_regions a R Zn 3 k r pc
  = Location_regions a (R mod 3) (Zn mod 3) 3 k r pc.
Proof.
  intros HR HZ. revert r pc; induction k as [|k IH]; intros r pc Hr;
    [reflexivity|].
  rewrite !Location_regions_unfold.
  rewrite <- Location_zones_mod by lia.
  destruct (Location_zones _ _ _ _ _ _ _) as [|[l|]]; try reflexivity.
  cbv zeta. unfold mbind, exec_bind.
  rewrite <- (rem_shift r R) by assumption.
  destruct (Location_ContainsAddress _ _) as [|[|]]; try reflexivity.
  destruct pc; cbn [negb]; [apply IH; lia|].
  destruct (Location_ContainsAddress _ _) as [|[|]]; try reflexivity.
  apply IH; lia.
Qed.

(** The search, run on every first byte from every residue of the node's
    coordinates, agrees with the closed form of the partition. *)
Lemma search_table :
  forallb (fun Rm => forallb (fun Zm => forallb (fun p =>
    bool_decide (Location_regions [p] Rm Zm 3 3 0 false
                 = Ret (location_of_prefix p)))
    byte_values) [0; 1; 2]) [0; 1; 2] = true.
Proof. vm_compute. reflexivity. Qed.

Lemma Address_Location_spec (NodeLocation : Location) (a : Address) :
  is_byte (index a 0) ->
  Address_Location NodeLocation a = Ret (location_of_prefix (index a 0)).
Proof.
  intros Hp. unfold Address_Location.
  set (R := if Location_HasRegion NodeLocation then _ else 0).
  set (Zn := if Location_HasZone NodeLocation then _ else 0).
  assert (HR : 0 <= R).
  { subst R. unfold Location_HasRegion.
    destruct (Z.geb_spec (Location_Region NodeLocation) 0); lia. }
  assert (HZ : 0 <= Zn).
  { subst Zn. unfold Location_HasZone.
    destruct (Z.geb_spec (Location_Zone NodeLocation) 0); lia. }
  change HierarchyDepth with 3. change (Z.to_nat NumRegionsInPrime) with 3%nat.
  rewrite Location_regions_first_byte, Location_regions_mod by lia.
  pose proof search_table as T. rewrite forallb_forall in T.
  assert (HRm : In (R mod 3) [0; 1; 2]).
  { pose proof (Z.mod_pos_bound R 3 eq_refl). simpl. lia. }
  assert (HZm : In (Zn mod 3) [0; 1; 2]).
  { pose proof (Z.mod_pos_bound Zn 3 eq_refl). simpl. lia. }
  specialize (T _ HRm). rewrite forallb_forall in T. specialize (T _ HZm).
  pose proof (byte_values_forall _ T _ Hp) as E.
  now apply bool_decide_eq_true in E.
Qed.

Lemma contains_table :
  forallb (fun l => forallb (fun p =>
    bool_decide (Location_ContainsAddress l [p]
                 = Ret (bool_decide (location_of_prefix p = Some l))))
    byte_values) all_locations = true.
Proof. vm_compute. reflexivity. Qed.

Lemma ContainsAddress_spec (l : Location) (a : Address) :
  valid_Location l -> is_byte (index a 0) ->
  Location_ContainsAddress l a
  = Ret (bool_decide (location_of_prefix (index a 0) = Some l)).
Proof.
  intros Hl%valid_Location_enum Hp.
  pose proof contains_table as T. rewrite forallb_forall in T.
  pose proof (byte_values_forall _ (T _ Hl) _ Hp) as E.
  apply bool_decide_eq_true in E. now rewrite ContainsAddress_first_byte.
Qed.

(** [ContainsAddress] answers true exactly when the table registers, under
    the location's name, a range that holds the first byte. *)
Lemma ContainsAddress_true_iff (l : Location) (a : Address) :
  Location_ContainsAddress l a = Ret true <->
  exists name rg,
    Location_Name l = Ret name
    /\ locationToPrefixRange !! name = Some rg
    /\ lo rg <= index a 0 <= hi rg.
Proof.
  unfold Location_ContainsAddress. cbv zeta. unfold mbind, exec_bind.
  destruct (Location_Name l) as [|name].
  - split; [discriminate | intros (? & ? & [=] & _)].
  - destruct (locationToPrefixRange !! name) as [rg|] eqn:E.
    + split.
      * intros [= H]. apply andb_true_iff in H as [H1 H2].
        rewrite Z.geb_leb in H1. apply Z.leb_le in H1, H2.
        exists name, rg. repeat split; assumption.
      * intros (? & ? & [= <-] & E' & H1 & H2).
        rewrite E in E'. injection E' as <-. f_equal.
        rewrite Z.geb_leb. apply andb_true_iff. split; now apply Z.leb_le.
    + split; [discriminate | intros (? & ? & [= <-] & E' & _); congruence].
Qed.

Lemma wf_Address_first_byte (a : Address) :
  wf_Address a -> is_byte (index a 0).
Proof.
  intros [Hlen Hall]. destruct a as [|x a]; [discriminate|].
  now inversion Hall.
Qed.

Lemma location_of_prefix_valid (p : Z) (l : Location) :
  is_byte p -> location_of_prefix p = Some l -> valid_Location l.
Proof.
  intros Hp E.
  assert (T : forallb (fun p => match location_of_prefix p with
                                | Some l => bool_decide (In l all_locations)
                                | None => true
                                end) byte_values = true)
    by (vm_compute; reflexivity).
  pose proof (byte_values_forall _ T p Hp) as H. simpl in H.
  rewrite E in H. apply bool_decide_eq_true in H.
  now apply valid_Location_enum.
Qed.

Lemma location_of_prefix_None (p : Z) :
  is_byte p -> (location_of_prefix p = None <-> 130 <= p).
Proof.
  intros Hp. unfold location_of_prefix.
  destruct (Z.ltb_spec p 10); [split; [discriminate | lia]|].
  destruct (Z.ltb_spec p 130).
  - destruct (_ =? 0); split; (discriminate || lia).
  - split; [lia | reflexivity].
Qed.

Lemma ZeroAddr_first_byte : wf_Address ZeroAddr /\ index ZeroAddr 0 = 0.
Proof.
  split; [|reflexivity]. split; [reflexivity|].
  vm_compute. repeat constructor; discriminate.
Qed.

(** The entries of the table, listed. *)
Lemma table_entries (name : string) (rg : addrPrefixRange) :
  locationToPrefixRange !! name = Some rg <->
  In (name, rg)
    [ ("prime", NewRange 0 9);
      ("cyprus", NewRange 10 19); ("cyprus1", NewRange 20 29);
      ("cyprus2", NewRange 30 39); ("cyprus3", NewRange 40 49);
      ("paxos", NewRange 50 59); ("paxos1", NewRange 60 69);
      ("paxos2", NewRange 70 79); ("paxos3", NewRange 80 89);
      ("hydra", NewRange 90 99); ("hydra1", NewRange 100 109);
      ("hydra2", NewRange 110 119); ("hydra3", NewRange 120 129) ].
Proof.
  split.
  - intros H. apply elem_of_map_to_list in H. vm_compute in H.
    repeat (apply elem_of_cons in H as [ H | H ];
            [injection H as -> ->; simpl; tauto|]).
    now apply elem_of_nil in H.
  - simpl. intros H.
    repeat (destruct H as [ H | H ];
            [injection H as <- <-; vm_compute; reflexivity|]).
    contradiction.
Qed.

(** The registered ranges are a disjoint cover of 0-129 and hold nothing
    above. *)
Lemma table_partition (p : Z) :
  (0 <= p <= 129 ->
     exists name rg,
       locationToPrefixRange !! name = Some rg /\ lo rg <= p <= hi rg
       /\ forall name' rg',
            locationToPrefixRange !! name' = Some rg' ->
            lo rg' <= p <= hi rg' -> name' = name)
  /\ (130 <= p ->
        forall name rg,
          locationToPrefixRange !! name = Some rg -> ~ lo rg <= p <= hi rg).
Proof.
  split.
  - intros Hp.
    assert (C : exists name rg,
              In (name, rg)
                [ ("prime", NewRange 0 9);
                  ("cyprus", NewRange 10 19); ("cyprus1", NewRange 20 29);
                  ("cyprus2", NewRange 30 39); ("cyprus3", NewRange 40 49);
                  ("paxos", NewRange 50 59); ("paxos1", NewRange 60 69);
                  ("paxos2", NewRange 70 79); ("paxos3", NewRange 80 89);
                  ("hydra", NewRange 90 99); ("hydra1", NewRange 100 109);
                  ("hydra2", NewRange 110 119); ("hydra3", NewRange 120 129) ]
              /\ lo rg <= p <= hi rg).
    { assert (D : p <= 9 \/ 10 <= p <= 19 \/ 20 <= p <= 29 \/ 30 <= p <= 39
                  \/ 40 <= p <= 49 \/ 50 <= p <= 59 \/ 60 <= p <= 69
                  \/ 70 <= p <= 79 \/ 80 <= p <= 89 \/ 90 <= p <= 99
                  \/ 100 <= p <= 109 \/ 110 <= p <= 119 \/ 120 <= p) by lia.
      destruct D as [ D | [ D | [ D | [ D | [ D | [ D | [ D | [ D | [ D
        | [ D | [ D | [ D | D ] ] ] ] ] ] ] ] ] ] ] ].
      - exists "prime", (NewRange 0 9); split; [simpl; tauto | simpl; lia].
      - exists "cyprus", (NewRange 10 19); split; [simpl; tauto | simpl; lia].
      - exists "cyprus1", (NewRange 20 29); split; [simpl; tauto | simpl; lia].
      - exists "cyprus2", (NewRange 30 39); split; [simpl; tauto | simpl; lia].
      - exists "cyprus3", (NewRange 40 49); split; [simpl; tauto | simpl; lia].
      - exists "paxos", (NewRange 50 59); split; [simpl; tauto | simpl; lia].
      - exists "paxos1", (NewRange 60 69); split; [simpl; tauto | simpl; lia].
      - exists "paxos2", (NewRange 70 79); split; [simpl; tauto | simpl; lia].
      - exists "paxos3", (NewRange 80 89); split; [simpl; tauto | simpl; lia].
      - exists "hydra", (NewRange 90 99); split; [simpl; tauto | simpl; lia].
      - exists "hydra1", (NewRange 100 109); split; [simpl; tauto | simpl; lia].
      - exists "hydra2", (NewRange 110 119); split; [simpl; tauto | simpl; lia].
      - exists "hydra3", (NewRange 120 129); split; [simpl; tauto | simpl; lia]. }
    destruct C as (name & rg & Hin & Hrg).
    exists name, rg. split; [now apply table_entries|]. split; [exact Hrg|].
    intros name' rg' H' Hrg'. apply table_entries in H'.
    simpl in Hin, H'.
    repeat (destruct Hin as [ Hin | Hin ]; [injection Hin as <- <-|]);
      try contradiction;
      repeat (destruct H' as [ H' | H' ]; [injection H' as <- <-|]);
      try contradiction; try reflexivity; simpl in Hrg, Hrg'; lia.
  - intros Hp name rg H%table_entries. simpl in H.
    repeat (destruct H as [ H | H ]; [injection H as <- <-; simpl; lia|]).
    contradiction.
Qed.

Lemma location_of_prefix_range (lo hi : Z) (l : Location) :
  forallb (fun p => implb ((lo <=? p) && (p <=? hi))
                          (bool_decide (location_of_prefix p = Some l)))
          byte_values = true ->
  forall p, is_byte p -> lo <= p <= hi -> location_of_prefix p = Some l.
Proof.
  intros T p Hp [H1 H2]. pose proof (byte_values_forall _ T p Hp) as H.
  simpl in H. apply Z.leb_le in H1, H2. rewrite H1, H2 in H. simpl in H.
  now apply bool_decide_eq_true in H.
Qed.

(** C10. [Address.Location] returns the prime location for every address
    whose first byte is in 0-9, the region location for every address whose
    first byte is in the range registered for that region (10-19 cyprus,
    50-59 paxos, 90-99 hydra), and [nil] exactly when the first byte is 130
    or more; the registered ranges are a disjoint cover of 0-129. *)
Theorem Location_by_first_byte (NodeLocation : Location) (a : Address) :
  wf_Address a ->
  (0 <= index a 0 <= 9 -> Address_Location NodeLocation a = Ret (Some []))
  /\ (10 <= index a 0 <= 19 ->
        Address_Location NodeLocation a = Ret (Some [0]))
  /\ (50 <= index a 0 <= 59 ->
        Address_Location NodeLocation a = Ret (Some [1]))
  /\ (90 <= index a 0 <= 99 ->
        Address_Location NodeLocation a = Ret (Some [2]))
  /\ (Address_Location NodeLocation a = Ret None <-> 130 <= index a 0)
  /\ (Location_Name [] = Ret "prime"
      /\ locationToPrefixRange !! "prime" = Some (NewRange 0 9))
  /\ (Location_Name [0] = Ret "cyprus"
      /\ Location_Context [0] = Ret REGION_CTX
      /\ locationToPrefixRange !! "cyprus" = Some (NewRange 10 19))
  /\ (Location_Name [1] = Ret "paxos"
      /\ Location_Context [1] = Ret REGION_CTX
      /\ locationToPrefixRange !! "paxos" = Some (NewRange 50 59))
  /\ (Location_Name [2] = Ret "hydra"
      /\ Location_Context [2] = Ret REGION_CTX
      /\ locationToPrefixRange !! "hydra" = Some (NewRange 90 99))
  /\ (index a 0 <= 129 ->
        exists name rg,
          locationToPrefixRange !! name = Some rg
          /\ lo rg <= index a 0 <= hi rg
          /\ forall name' rg',
               locationToPrefixRange !! name' = Some rg' ->
               lo rg' <= index a 0 <= hi rg' -> name' = name).
Proof.
  intros Hp%wf_Address_first_byte.
  rewrite (Address_Location_spec NodeLocation a Hp).
  split; [|split; [|split; [|split; [|split]]]].
  - intros H. f_equal.
    apply (location_of_prefix_range 0 9); [vm_compute; reflexivity | | ]; easy.
  - intros H. f_equal.
    apply (location_of_prefix_range 10 19); [vm_compute; reflexivity | | ]; easy.
  - intros H. f_equal.
    apply (location_of_prefix_range 50 59); [vm_compute; reflexivity | | ]; easy.
  - intros H. f_equal.
    apply (location_of_prefix_range 90 99); [vm_compute; reflexivity | | ]; easy.
  - rewrite <- (location_of_prefix_None _ Hp). split; congruence.
  - repeat split; try (vm_compute; reflexivity).
    intros H. apply table_partition. destruct Hp. lia.
Qed.

Lemma Location_by_first_byte_witness :
  Address_Location [1; 2] (95 :: repeat 0 19) = Ret (Some [2]).
Proof.
  assert (Hwf : wf_Address (95 :: repeat 0 19)).
  { split; [reflexivity|]. repeat constructor; discriminate. }
  destruct (Location_by_first_byte [1; 2] (95 :: repeat 0 19) Hwf)
    as (_ & _ & _ & H & _).
  apply H. unfold index. simpl. lia.
Defined.

(** C6. [Address.Location] returns the prime location for the zero address;
    and for every address whose first byte lies in the range registered for
    a zone, it returns that zone's location, whose [ContainsAddress] holds
    of the address. *)
Theorem Location_of_zone_address (NodeLocation : Location) :
  Address_Location NodeLocation ZeroAddr = Ret (Some [])
  /\ forall (a : Address) (l : Location) (name : string) (rg : addrPrefixRange),
       wf_Address a ->
       valid_Location l -> length l = 2%nat ->
       Location_Name l = Ret name ->
       locationToPrefixRange !! name = Some rg ->
       lo rg <= index a 0 <= hi rg ->
       Address_Location NodeLocation a = Ret (Some l)
       /\ Location_ContainsAddress l a = Ret true.
Proof.
  split.
  - destruct ZeroAddr_first_byte as [Hwf _].
    now rewrite Address_Location_spec by now apply wf_Address_first_byte.
  - intros a l name rg Hp%wf_Address_first_byte Hl _ Hname Hrg Hin.
    assert (Hc : Location_ContainsAddress l a = Ret true)
      by (apply ContainsAddress_true_iff; eauto).
    split; [|exact Hc].
    rewrite ContainsAddress_spec in Hc by assumption.
    injection Hc as Hc. apply bool_decide_eq_true in Hc.
    now rewrite Address_Location_spec, Hc.
Qed.

Lemma Location_of_zone_address_witness :
  Address_Location [0; 2] (75 :: repeat 0 19) = Ret (Some [1; 1])
  /\ Location_ContainsAddress [1; 1] (75 :: repeat 0 19) = Ret true.
Proof.
  destruct (Location_of_zone_address [0; 2]) as [_ H].
  apply (H (75 :: repeat 0 19) [1; 1] "paxos2" (NewRange 70 79)).
  - split; [reflexivity|]. repeat constructor; discriminate.
  - simpl. unfold NumRegionsInPrime, NumZonesInRegion. lia.
  - reflexivity.
  - vm_compute. reflexivity.
  - vm_compute. reflexivity.
  - unfold index. simpl. lia.
Defined.

(** C1, as the code has it.  For every address [Address.Location] ends
    without a fatal exit and returns the one valid location, of whichever
    tier (prime, region or zone), whose registered range holds the first
    byte of the address, or [nil] when no valid location's range holds it,
    which is when the first byte is 130 or more; for the zero address the
    location returned is prime. *)
Theorem Location_unique_owner (NodeLocation : Location) (a : Address) :
  wf_Address a ->
  exists r,
    Address_Location NodeLocation a = Ret r
    /\ match r with
       | Some l =>
           valid_Location l
           /\ Location_ContainsAddress l a = Ret true
           /\ (exists name rg,
                 Location_Name l = Ret name
                 /\ locationToPrefixRange !! name = Some rg
                 /\ lo rg <= index a 0 <= hi rg)
           /\ (forall l', valid_Location l' ->
                 Location_ContainsAddress l' a = Ret true -> l' = l)
       | None =>
           130 <= index a 0
           /\ (forall l', valid_Location l' ->
                 Location_ContainsAddress l' a = Ret false)
       end
    /\ (r = None <-> 130 <= index a 0)
    /\ (a = ZeroAddr -> r = Some []).
Proof.
  intros Hp%wf_Address_first_byte.
  exists (location_of_prefix (index a 0)).
  split; [now apply Address_Location_spec|].
  split; [|split; [now apply location_of_prefix_None|]].
  - destruct (location_of_prefix (index a 0)) as [l|] eqn:E.
    + pose proof (location_of_prefix_valid _ _ Hp E) as Hl.
      assert (Hc : Location_ContainsAddress l a = Ret true).
      { rewrite ContainsAddress_spec, E by assumption.
        now rewrite bool_decide_eq_true_2. }
      split; [exact Hl|]. split; [exact Hc|].
      split; [now apply ContainsAddress_true_iff|].
      intros l' Hl' Hc'. rewrite ContainsAddress_spec in Hc' by assumption.
      injection Hc' as Hc'. apply bool_decide_eq_true in Hc'. congruence.
    + split; [now apply location_of_prefix_None|].
      intros l' Hl'. rewrite ContainsAddress_spec, E by assumption.
      now rewrite bool_decide_eq_false_2.
  - intros ->. reflexivity.
Qed.

Lemma Location_unique_owner_witness :
  exists r, Address_Location [2] (33 :: repeat 0 19) = Ret r.
Proof.
  assert (Hwf : wf_Address (33 :: repeat 0 19)).
  { split; [reflexivity|]. repeat constructor; discriminate. }
  destruct (Location_unique_owner [2] (33 :: repeat 0 19) Hwf) as (r & H & _).
  exists r. exact H.
Defined.

(** C1, as stated, fails: an address that is not the zero address and
    whose first byte is 10 is bound to region cyprus, a mid-tier location;
    and an address with first byte 5, not the zero address either, is bound
    to prime. *)
Lemma Location_returns_region :
  wf_Address (10 :: repeat 0 19)
  /\ 10 :: repeat 0 19 <> ZeroAddr
  /\ Address_Location [] (10 :: repeat 0 19) = Ret (Some [0])
  /\ Location_Context [0] = Ret REGION_CTX
  /\ 5 :: repeat 0 19 <> ZeroAddr
  /\ Address_Location [] (5 :: repeat 0 19) = Ret (Some []).
Proof.
  split.
  { split; [reflexivity|]. repeat constructor; discriminate. }
  split; [discriminate|]. split; [vm_compute; reflexivity|].
  split; [reflexivity|]. split; [discriminate|]. vm_compute; reflexivity.
Qed.

(** ** The gas limit *)

Section GasLimit.
Context {c : params.Constants}.
Hypothesis Hc : params.wf_Constants c.

Lemma u64_small (x : Z) : is_uint64 x -> u64 x = x.
Proof. intros H. apply Z.mod_small. exact H. Qed.

Lemma delta_no_wrap (parent : Z) :
  params.GasLimitBoundDivisor <= parent -> is_uint64 parent ->
  u64 (parent / params.GasLimitBoundDivisor - 1)
  = parent / params.GasLimitBoundDivisor - 1
  /\ 0 <= parent / params.GasLimitBoundDivisor - 1 < parent.
Proof.
  intros HD [H0 H1]. destruct Hc as [[HD0 HD1] _].
  assert (Hq1 : 1 <= parent / params.GasLimitBoundDivisor).
  { apply Z.div_le_lower_bound; lia. }
  assert (Hq2 : parent / params.GasLimitBoundDivisor <= parent).
  { apply Z.div_le_upper_bound; [lia|]. nia. }
  split; [apply u64_small; unfold is_uint64; lia | lia].
Qed.

(** In the range where the [uint64] arithmetic does not wrap, the result
    is the parent's limit moved toward the clamped target by [delta],
    and stopped at the target. *)
Lemma CalcGasLimit_no_wrap (parent desired : Z) :
  is_uint64 parent -> is_uint64 desired ->
  params.GasLimitBoundDivisor <= parent ->
  parent + parent / params.GasLimitBoundDivisor - 1 < 2 ^ 64 ->
  let delta := parent / params.GasLimitBoundDivisor - 1 in
  let target := Z.max desired params.MinGasLimit in
  core.CalcGasLimit parent desired =
    if parent <? target then Z.min (parent + delta) target
    else Z.max (parent - delta) target.
Proof.
  intros Hp Hd HD Hov. cbv zeta.
  destruct (delta_no_wrap parent HD Hp) as [Ed Hdelta].
  unfold core.CalcGasLimit. cbv zeta. rewrite Ed.
  set (delta := parent / params.GasLimitBoundDivisor - 1) in *.
  set (target := Z.max desired params.MinGasLimit).
  assert (Et : (if desired <? params.MinGasLimit
                then params.MinGasLimit else desired) = target).
  { subst target. destruct (Z.ltb_spec desired params.MinGasLimit); lia. }
  rewrite Et.
  rewrite (u64_small (parent + delta)) by (unfold is_uint64 in *; lia).
  rewrite (u64_small (parent - delta)) by (unfold is_uint64 in *; lia).
  destruct (Z.ltb_spec parent target).
  - destruct (Z.gtb_spec (parent + delta) target); lia.
  - destruct (Z.gtb_spec parent target); [|lia].
    destruct (Z.ltb_spec (parent - delta) target); lia.
Qed.

Lemma CalcGasLimit_fixed_point (parent desired : Z) :
  parent = Z.max desired params.MinGasLimit ->
  core.CalcGasLimit parent desired = parent.
Proof.
  intros E. unfold core.CalcGasLimit.
  assert (Et : (if desired <? params.MinGasLimit
                then params.MinGasLimit else desired) = parent).
  { destruct (Z.ltb_spec desired params.MinGasLimit); lia. }
  rewrite Et, Z.ltb_irrefl.
  destruct (Z.gtb_spec parent parent); [lia | reflexivity].
Qed.

(** A move down needs no room above: with the parent's limit at least the
    divisor, the subtraction does not wrap. *)
Lemma CalcGasLimit_down (parent desired : Z) :
  is_uint64 parent -> is_uint64 desired ->
  params.GasLimitBoundDivisor <= parent ->
  Z.max desired params.MinGasLimit <= parent ->
  core.CalcGasLimit parent desired
  = Z.max (parent - (parent / params.GasLimitBoundDivisor - 1))
          (Z.max desired params.MinGasLimit).
Proof.
  intros Hp Hd HD Hle.
  destruct (delta_no_wrap parent HD Hp) as [Ed Hdelta].
  unfold core.CalcGasLimit. cbv zeta. rewrite Ed.
  set (delta := parent / params.GasLimitBoundDivisor - 1) in *.
  assert (Et : (if desired <? params.MinGasLimit
                then params.MinGasLimit else desired)
               = Z.max desired params.MinGasLimit).
  { destruct (Z.ltb_spec desired params.MinGasLimit); lia. }
  rewrite Et. set (target := Z.max desired params.MinGasLimit) in *.
  rewrite (u64_small (parent - delta)) by (unfold is_uint64 in *; lia).
  destruct (Z.ltb_spec parent target); [lia|].
  destruct (Z.gtb_spec parent target); [|lia].
  destruct (Z.ltb_spec (parent - delta) target); lia.
Qed.

(** From a parent's limit at or above the target the result is never
    below the target, whatever the arithmetic does. *)
Lemma CalcGasLimit_not_below_target (parent desired : Z) :
  Z.max desired params.MinGasLimit <= parent ->
  Z.max desired params.MinGasLimit <= core.CalcGasLimit parent desired.
Proof.
  intros Hle. unfold core.CalcGasLimit. cbv zeta.
  assert (Et : (if desired <? params.MinGasLimit
                then params.MinGasLimit else desired)
               = Z.max desired params.MinGasLimit).
  { destruct (Z.ltb_spec desired params.MinGasLimit); lia. }
  rewrite Et. set (target := Z.max desired params.MinGasLimit) in *.
  destruct (Z.ltb_spec parent target); [lia|].
  destruct (Z.gtb_spec parent target); [|lia].
  destruct (Z.ltb_spec (u64 (parent - u64 (parent
              / params.GasLimitBoundDivisor - 1))) target); lia.
Qed.

End GasLimit.

(** C2, as the code has it.  Write [target] for the desired limit raised to
    [MinGasLimit] if it is below it, and [delta] for
    [parent / divisor - 1].  [CalcGasLimit] returns the parent's limit
    unchanged when the parent's limit equals [target], so in particular
    when it equals a desired limit that is at least [MinGasLimit]; and from
    a parent's limit at or above [target] the result is at least
    [MinGasLimit].  With the parent's limit at least
    [GasLimitBoundDivisor]: a move down, from a parent's limit at or above
    [target], ends between [target] and the parent's limit, at most [delta]
    below the parent's limit, at [target] or exactly [delta] below; a move
    up, from a parent's limit at or below [target] and when the sum
    [parent + parent / divisor - 1] fits a [uint64], ends between the
    parent's limit and [target], at most [delta] above the parent's limit,
    at [target] or exactly [delta] above, and at least [MinGasLimit]
    whenever the parent's limit is. *)
Theorem CalcGasLimit_moves_toward_target (c : params.Constants)
  (parent desired : Z) :
  params.wf_Constants c -> is_uint64 parent -> is_uint64 desired ->
  let target := Z.max desired params.MinGasLimit in
  let delta := parent / params.GasLimitBoundDivisor - 1 in
  let next := core.CalcGasLimit parent desired in
  (parent = target -> next = parent)
  /\ (parent = desired -> params.MinGasLimit <= desired -> next = parent)
  /\ (target <= parent -> params.MinGasLimit <= next)
  /\ (params.GasLimitBoundDivisor <= parent -> target <= parent ->
        target <= next <= parent
        /\ parent - next <= delta
        /\ (next = target \/ parent - next = delta)
        /\ is_uint64 next)
  /\ (params.GasLimitBoundDivisor <= parent ->
      parent + parent / params.GasLimitBoundDivisor - 1 < 2 ^ 64 ->
      parent <= target ->
        parent <= next <= target
        /\ next - parent <= delta
        /\ (next = target \/ next - parent = delta)
        /\ (params.MinGasLimit <= parent -> params.MinGasLimit <= next)
        /\ is_uint64 next)
  /\ (params.GasLimitBoundDivisor <= parent ->
        0 <= delta <= parent / params.GasLimitBoundDivisor).
Proof.
  intros Hc Hp Hd target delta next.
  assert (Ht : 0 <= target < 2 ^ 64).
  { destruct Hc as [_ HM]. unfold is_uint64 in Hd. subst target. lia. }
  split; [|split; [|split; [|split; [|split]]]].
  - intros E. now apply CalcGasLimit_fixed_point.
  - intros E HM. apply CalcGasLimit_fixed_point. lia.
  - intros Hle.
    pose proof (CalcGasLimit_not_below_target parent desired Hle) as H.
    fold target next in H. subst target. lia.
  - intros HD Hle.
    pose proof (CalcGasLimit_down Hc parent desired Hp Hd HD Hle) as E.
    fold target delta next in E.
    destruct (delta_no_wrap Hc parent HD Hp) as [_ Hdelta].
    fold delta in Hdelta. unfold is_uint64 in *.
    rewrite E. repeat split; lia.
  - intros HD Hov Hle.
    pose proof (CalcGasLimit_no_wrap Hc parent desired Hp Hd HD Hov) as E.
    cbv zeta in E. fold target delta next in E.
    destruct (delta_no_wrap Hc parent HD Hp) as [_ Hdelta].
    fold delta in Hdelta. unfold is_uint64 in *.
    destruct (Z.ltb_spec parent target); rewrite E; repeat split; lia.
  - intros HD. destruct (delta_no_wrap Hc parent HD Hp) as [_ Hdelta].
    fold delta in Hdelta. lia.
Qed.

Lemma CalcGasLimit_moves_toward_target_witness :
  core.CalcGasLimit (H := params.example_Constants) 1000000 2000000
  = 1000000 + (1000000 / 1024 - 1)
  /\ core.CalcGasLimit (H := params.example_Constants) (2 ^ 64 - 1) 0
     = 2 ^ 64 - 1 - ((2 ^ 64 - 1) / 1024 - 1).
Proof.
  assert (Hc : params.wf_Constants params.example_Constants)
    by (vm_compute; repeat split; closed_cmp).
  split.
  - assert (Hp : is_uint64 1000000) by (vm_compute; split; closed_cmp).
    assert (Hd : is_uint64 2000000) by (vm_compute; split; closed_cmp).
    destruct (CalcGasLimit_moves_toward_target params.example_Constants
                1000000 2000000 Hc Hp Hd) as (_ & _ & _ & _ & H & _).
    destruct (H ltac:(vm_compute; closed_cmp) ltac:(vm_compute; closed_cmp)
                ltac:(vm_compute; closed_cmp))
      as (_ & _ & [E | E] & _).
    + vm_compute in E. discriminate E.
    + vm_compute. reflexivity.
  - assert (Hp : is_uint64 (2 ^ 64 - 1)) by (vm_compute; split; closed_cmp).
    assert (Hd : is_uint64 0) by (vm_compute; split; closed_cmp).
    destruct (CalcGasLimit_moves_toward_target params.example_Constants
                (2 ^ 64 - 1) 0 Hc Hp Hd) as (_ & _ & _ & H & _).
    destruct (H ltac:(vm_compute; closed_cmp) ltac:(vm_compute; closed_cmp))
      as (_ & _ & [E | E] & _).
    + vm_compute in E. discriminate E.
    + vm_compute. reflexivity.
Defined.

(** Whatever the constants, as long as the divisor is below the minimum:
    a parent limit equal to the divisor does not move (its [delta] is 0)
    and stays below the minimum although the desired limit is the minimum. *)
Lemma CalcGasLimit_stays_below_min (c : params.Constants) :
  params.wf_Constants c ->
  params.GasLimitBoundDivisor < params.MinGasLimit ->
  core.CalcGasLimit params.GasLimitBoundDivisor params.MinGasLimit
  = params.GasLimitBoundDivisor.
Proof.
  intros Hc Hlt. destruct Hc as [[HD0 HD1] [HM0 HM1]].
  unfold core.CalcGasLimit.
  rewrite Z.div_same by lia. change (u64 (1 - 1)) with 0.
  rewrite Z.ltb_irrefl, Z.add_0_r.
  destruct (Z.ltb_spec params.GasLimitBoundDivisor params.MinGasLimit);
    [|lia].
  rewrite u64_small by (unfold is_uint64; lia).
  destruct (Z.gtb_spec params.GasLimitBoundDivisor params.MinGasLimit);
    [lia | reflexivity].
Qed.

(** C2, as stated, fails.  With a divisor of 1024 and a minimum of 5000:
    from a parent limit of 2048 and a desired limit of 5000, which is not
    below the minimum, the result 2049 is below the minimum; and with
    parent and desired limits both 2048 the result is not the parent's
    limit. *)
Lemma CalcGasLimit_below_min :
  core.CalcGasLimit (H := params.example_Constants) 2048 5000 = 2049
  /\ 5000 >= params.MinGasLimit (Constants := params.example_Constants)
  /\ 2049 < params.MinGasLimit (Constants := params.example_Constants)
  /\ core.CalcGasLimit (H := params.example_Constants) 2048 2048 = 2049.
Proof. vm_compute. repeat split; discriminate. Qed.


(** ** The block validator *)

Lemma Hash_neq_true (h1 h2 : Hash) : core.Hash_neq h1 h2 = true <-> h1 <> h2.
Proof.
  unfold core.Hash_neq. rewrite negb_true_iff, <- not_true_iff_false.
  now rewrite bytes_Equal_eq.
Qed.

Lemma Hash_neq_false (h1 h2 : Hash) : core.Hash_neq h1 h2 = false <-> h1 = h2.
Proof. unfold core.Hash_neq. now rewrite negb_false_iff, bytes_Equal_eq. Qed.

Section ValidatorFacts.
Import types consensus core.
Context `{C : Chain} `{!ReceiptOps} `{!Engine} `{!Backend}.

(** The errors that only the last two steps of [ValidateBody] return. *)
Lemma bad_sub_manifest_bool (nodeCtx : Z) (block : Block) :
  bytes_Equal (DeriveSha_BlockManifest (Block_SubManifest block)) EmptyRootHash
  || Hash_neq (DeriveSha_BlockManifest (Block_SubManifest block))
              (Header_ManifestHash (Block_Header block) (nodeCtx + 1)) = true
  <-> bad_sub_manifest nodeCtx block.
Proof.
  unfold bad_sub_manifest. cbv zeta.
  now rewrite orb_true_iff, bytes_Equal_eq, Hash_neq_true.
Qed.

(** A block that is not known yet and passes the uncle and root checks is
    decided by the manifest check and then by the ancestor check. *)
Lemma ValidateBody_after_roots (NodeLocation : Location) (block : Block)
  (nodeCtx : Z) :
  Location_Context NodeLocation = Ret nodeCtx ->
  HasBlockAndState (Block_Hash block) (Block_NumberU64 block) = false ->
  body_roots_ok block ->
  ValidateBody NodeLocation block =
  Ret (if (nodeCtx <? ZONE_CTX)
          && (bytes_Equal
                (DeriveSha_BlockManifest (Block_SubManifest block))
                EmptyRootHash
              || Hash_neq
                   (DeriveSha_BlockManifest (Block_SubManifest block))
                   (Header_ManifestHash (Block_Header block) (nodeCtx + 1)))
       then Some ErrBadSubManifest
       else if negb (HasBlockAndState (Block_ParentHash block)
                                      (u64 (Block_NumberU64 block - 1)))
       then if negb (HasBlock (Block_ParentHash block)
                              (u64 (Block_NumberU64 block - 1)))
            then Some ErrUnknownAncestor
            else Some ErrPrunedAncestor
       else None).
Proof.
  intros Hctx Hknown (Hv & Hu & Ht & He).
  unfold ValidateBody. rewrite Hctx. unfold mbind, exec_bind.
  rewrite Hknown, Hv. cbv zeta.
  rewrite (proj2 (Hash_neq_false _ _) Hu), (proj2 (Hash_neq_false _ _) Ht),
    (proj2 (Hash_neq_false _ _) He).
  destruct (_ && _); [reflexivity|].
  destruct (negb _); [|reflexivity].
  destruct (negb _); reflexivity.
Qed.

(** An error of the manifest check or of the ancestor check is returned
    only for a block that was not known and passed the uncle and root
    checks. *)
Lemma ValidateBody_late_error (NodeLocation : Location) (block : Block)
  (e : error) :
  ValidateBody NodeLocation block = Ret (Some e) ->
  e = ErrBadSubManifest \/ e = ErrUnknownAncestor \/ e = ErrPrunedAncestor ->
  HasBlockAndState (Block_Hash block) (Block_NumberU64 block) = false
  /\ body_roots_ok block.
Proof.
  unfold ValidateBody, body_roots_ok.
  destruct (Location_Context NodeLocation) as [|nodeCtx]; [discriminate|].
  unfold mbind, exec_bind. cbv zeta.
  destruct (HasBlockAndState (Block_Hash block) _);
    [intros [= <-] [|[|]]; discriminate|].
  destruct (VerifyUncles block); [intros [= <-] [|[|]]; discriminate|].
  destruct (Hash_neq (CalcUncleHash _) _) eqn:Eu;
    [intros [= <-] [|[|]]; discriminate|].
  destruct (Hash_neq (DeriveSha_Transactions (Block_Transactions block)) _)
    eqn:Et; [intros [= <-] [|[|]]; discriminate|].
  destruct (Hash_neq (DeriveSha_Transactions (Block_ExtTransactions block)) _)
    eqn:Ee; [intros [= <-] [|[|]]; discriminate|].
  intros _ _. apply Hash_neq_false in Eu, Et, Ee. repeat split; assumption.
Qed.

Lemma ValidateBody_known (NodeLocation : Location) (block : Block)
  (nodeCtx : Z) :
  Location_Context NodeLocation = Ret nodeCtx ->
  (ValidateBody NodeLocation block = Ret (Some ErrKnownBlock)
   <-> HasBlockAndState (Block_Hash block) (Block_NumberU64 block) = true).
Proof.
  intros Hctx. unfold ValidateBody. rewrite Hctx.
  unfold mbind, exec_bind. cbv zeta.
  destruct (HasBlockAndState (Block_Hash block) _); [tauto|].
  split; [|discriminate]. intros E. exfalso.
  destruct (VerifyUncles block); [discriminate|].
  repeat (match type of E with
          | (if ?b then _ else _) = _ => destruct b; try discriminate
          end).
Qed.

End ValidatorFacts.

Lemma Context_range (loc : Location) (ctx : Z) :
  Location_Context loc = Ret ctx ->
  ctx = PRIME_CTX \/ ctx = REGION_CTX \/ ctx = ZONE_CTX.
Proof.
  unfold Location_Context.
  destruct (Location_AssertValid loc); [discriminate|].
  unfold mbind, exec_bind.
  destruct (Location_Zone loc >=? 0); [intros [= <-]; tauto|].
  destruct (Location_Region loc >=? 0); intros [= <-]; tauto.
Qed.

Section ValidateBodyClaims.
Import types consensus core.
Context `{C : Chain} `{!Engine} `{!Backend}.

(** C3, as the code has it.  On a node whose own location is not a zone,
    a block that reaches
    the manifest check (it is not known yet, the engine accepts its uncles
    and its uncle, transaction and external-transaction roots match) gets
    [ErrBadSubManifest] exactly when the root recomputed from the body's
    sub-manifest is the empty-list root or differs from the header's
    manifest root for the subordinate tier; so a header whose slot holds
    the empty-list root always fails.  No block gets [ErrBadSubManifest]
    otherwise; and on a zone node the check is skipped: [ErrBadSubManifest]
    is never returned. *)
Theorem BadSubManifest_iff (NodeLocation : Location) (block : Block)
  (nodeCtx : Z) :
  Location_Context NodeLocation = Ret nodeCtx ->
  (nodeCtx < ZONE_CTX \/ nodeCtx = ZONE_CTX)
  /\ (nodeCtx < ZONE_CTX ->
      HasBlockAndState (Block_Hash block) (Block_NumberU64 block) = false ->
      body_roots_ok block ->
      (ValidateBody NodeLocation block = Ret (Some ErrBadSubManifest)
       <-> bad_sub_manifest nodeCtx block))
  /\ (nodeCtx < ZONE_CTX ->
      HasBlockAndState (Block_Hash block) (Block_NumberU64 block) = false ->
      body_roots_ok block ->
      Header_ManifestHash (Block_Header block) (nodeCtx + 1) = EmptyRootHash ->
      ValidateBody NodeLocation block = Ret (Some ErrBadSubManifest))
  /\ (ValidateBody NodeLocation block = Ret (Some ErrBadSubManifest) ->
      nodeCtx < ZONE_CTX
      /\ HasBlockAndState (Block_Hash block) (Block_NumberU64 block) = false
      /\ body_roots_ok block
      /\ bad_sub_manifest nodeCtx block)
  /\ (nodeCtx = ZONE_CTX ->
      ValidateBody NodeLocation block <> Ret (Some ErrBadSubManifest)).
Proof.
  intros Hctx.
  assert (Hiff : HasBlockAndState (Block_Hash block) (Block_NumberU64 block)
                 = false ->
                 body_roots_ok block ->
                 (ValidateBody NodeLocation block = Ret (Some ErrBadSubManifest)
                  <-> nodeCtx < ZONE_CTX /\ bad_sub_manifest nodeCtx block)).
  { intros Hk Hr. rewrite (ValidateBody_after_roots _ _ _ Hctx Hk Hr).
    rewrite <- bad_sub_manifest_bool.
    destruct (Z.ltb_spec nodeCtx ZONE_CTX) as [Hlt|Hge];
      destruct (_ || _); simpl.
    - tauto.
    - split; [|intros [_ [=]]].
      destruct (negb _); [destruct (negb _)|]; discriminate.
    - split; [|lia].
      destruct (negb _); [destruct (negb _)|]; discriminate.
    - split; [|lia].
      destruct (negb _); [destruct (negb _)|]; discriminate. }
  assert (Hlate : ValidateBody NodeLocation block = Ret (Some ErrBadSubManifest)
                  -> nodeCtx < ZONE_CTX
                     /\ HasBlockAndState (Block_Hash block)
                                         (Block_NumberU64 block) = false
                     /\ body_roots_ok block
                     /\ bad_sub_manifest nodeCtx block).
  { intros E.
    destruct (ValidateBody_late_error _ _ _ E) as [Hk Hr]; [tauto|].
    apply (Hiff Hk Hr) in E. tauto. }
  split; [|split; [|split; [|split]]].
  - destruct (Context_range _ _ Hctx) as [ -> | [ -> | -> ] ];
      unfold PRIME_CTX, REGION_CTX, ZONE_CTX; lia.
  - intros Hlt Hk Hr. rewrite (Hiff Hk Hr). tauto.
  - intros Hlt Hk Hr Hslot. apply (Hiff Hk Hr). split; [exact Hlt|].
    unfold bad_sub_manifest. cbv zeta. rewrite Hslot.
    destruct (bytes_Equal
                (DeriveSha_BlockManifest (Block_SubManifest block))
                EmptyRootHash) eqn:E.
    + left. now apply bytes_Equal_eq.
    + right. intros E'. apply bytes_Equal_eq in E'. congruence.
  - exact Hlate.
  - intros Hz E. apply Hlate in E. lia.
Qed.


End ValidateBodyClaims.

Section ValidateBodyExamples.
Import example.

Lemma BadSubManifest_iff_witness :
  core.ValidateBody (H1 := example.backend example.store_full)
    [1] example.block7_no_manifest = Ret (Some core.ErrBadSubManifest)
  /\ core.ValidateBody (H1 := example.backend example.store_full)
       [] example.block7 = Ret (Some core.ErrBadSubManifest).
Proof.
  split.
  - destruct (@BadSubManifest_iff example.chain example.engine
                (example.backend example.store_full)
                [1] example.block7_no_manifest 1 eq_refl) as (_ & H & _).
    apply H.
    + vm_compute. reflexivity.
    + reflexivity.
    + repeat split; reflexivity.
    + left. reflexivity.
  - destruct (@BadSubManifest_iff example.chain example.engine
                (example.backend example.store_full)
                [] example.block7 0 eq_refl) as (_ & _ & H & _).
    apply H.
    + vm_compute. reflexivity.
    + reflexivity.
    + repeat split; reflexivity.
    + reflexivity.
Defined.


(** C3, as stated, fails: on a region node, two blocks whose body
    manifest is empty, so that the recomputed root is the empty-list root,
    do not get [ErrBadSubManifest]: one that is already known gets
    [ErrKnownBlock], and one whose transaction root does not match gets the
    transaction-root error. *)
Lemma BadSubManifest_needs_earlier_checks :
  Location_Context [1] = Ret 1
  /\ 1 < ZONE_CTX
  /\ core.bad_sub_manifest (C := chain) 1 block7_no_manifest
  /\ core.ValidateBody (H1 := backend store_known) [1] block7_no_manifest
     = Ret (Some core.ErrKnownBlock)
  /\ core.bad_sub_manifest (C := chain) 1 block7_other_tx_no_manifest
  /\ core.ValidateBody (H1 := backend store_full) [1]
       block7_other_tx_no_manifest
     = Ret (Some (core.ErrTxRoot [99] [11])).
Proof.
  split; [reflexivity|]. split; [reflexivity|].
  split; [left; reflexivity|]. split; [reflexivity|].
  split; [left; reflexivity | reflexivity].
Qed.

End ValidateBodyExamples.

(** ** The state validator *)

Section ValidateStateClaims.
Import types consensus core.
Context `{C : Chain} `{!ReceiptOps} `{!Engine} `{!Backend}.

Lemma append_etxs_app (emittedEtxs etxs : list Transaction) :
  append_etxs emittedEtxs etxs = emittedEtxs ++ etxs.
Proof.
  revert emittedEtxs; induction etxs as [|etx rest IH]; intros acc; simpl.
  - now rewrite app_nil_r.
  - rewrite IH. now rewrite <- app_assoc.
Qed.

(** The two loops of the emission pass compute the list the specification
    describes. *)
Lemma collect_emitted_spec (emittedEtxs : list Transaction)
  (receipts : list Receipt) :
  collect_emitted emittedEtxs receipts = emittedEtxs ++ emitted_spec receipts.
Proof.
  revert emittedEtxs; induction receipts as [|r rest IH]; intros acc.
  - simpl. unfold emitted_spec. simpl. now rewrite app_nil_r.
  - unfold emitted_spec in *. simpl.
    destruct (Status r =? ReceiptStatusSuccessful); simpl; rewrite IH.
    + now rewrite append_etxs_app, <- app_assoc.
    + reflexivity.
Qed.

(** Past the gas, bloom, receipt-root and state-root checks, the state
    validator is decided by the emission check and then by the rollup. *)
Lemma ValidateState_after_roots (block : Block) (statedb : StateDB)
  (receipts : list Receipt) (usedGas : Z) :
  state_roots_ok block statedb receipts usedGas ->
  ValidateState block statedb receipts usedGas =
  let header := Block_Header block in
  let etxHash := DeriveSha_Transactions (emitted_spec receipts) in
  if Hash_neq etxHash (Header_EtxHash header)
  then Some (ErrEtxHash (Header_EtxHash header) etxHash)
  else match CollectEtxRollup block with
       | None => Some ErrEtxRollup
       | Some etxRollup =>
           if Hash_neq (DeriveSha_Transactions etxRollup)
                       (Header_EtxRollupHash header)
           then Some (ErrEtxRollupHash (Header_EtxRollupHash header)
                                       (DeriveSha_Transactions etxRollup))
           else None
       end.
Proof.
  intros (Hg & Hb & Hr & Hs). unfold ValidateState. cbv zeta.
  rewrite Hg, Z.eqb_refl, Hb, bytes_Equal_refl. simpl negb. cbv iota.
  rewrite (proj2 (Hash_neq_false _ _) Hr), Hs.
  rewrite (proj2 (Hash_neq_false _ _) eq_refl).
  rewrite bool_decide_eq_false_2 by (intros [? [=]]). simpl orb. cbv iota.
  rewrite collect_emitted_spec. reflexivity.
Qed.

(** The emission error is returned only past the four earlier checks. *)
Lemma ValidateState_emission_error (block : Block) (statedb : StateDB)
  (receipts : list Receipt) (usedGas : Z) (remote local : Hash) :
  ValidateState block statedb receipts usedGas = Some (ErrEtxHash remote local)
  -> state_roots_ok block statedb receipts usedGas.
Proof.
  unfold ValidateState, state_roots_ok. cbv zeta.
  destruct (Z.eqb_spec (Block_GasUsed block) usedGas) as [Hg|];
    [|discriminate]. simpl negb. cbv iota.
  destruct (bytes_Equal (CreateBloom receipts) _) eqn:Hb; [|discriminate].
  simpl negb. cbv iota. apply bytes_Equal_eq in Hb.
  destruct (Hash_neq (DeriveSha_Receipts receipts) _) eqn:Hr; [discriminate|].
  apply Hash_neq_false in Hr.
  destruct (IntermediateRoot statedb _) as [root [err|]] eqn:Hs.
  - rewrite bool_decide_eq_true_2 by eauto. rewrite orb_true_r. discriminate.
  - destruct (Hash_neq (Header_Root (Block_Header block)) root) eqn:Hroot.
    + simpl. discriminate.
    + apply Hash_neq_false in Hroot. subst root. intros _.
      repeat split; assumption.
Qed.


End ValidateStateClaims.

Section ValidateStateExamples.
Import example.


(** A failed receipt's external transactions are left out: the receipts of
    block 7, whose failed second receipt carries 13, emit [12] only and
    pass; counted in, 13 would have failed the emission check. *)
Lemma failed_receipt_emits_nothing :
  core.collect_emitted [] receipts7 = [12]
  /\ core.ValidateState (H1 := backend store_full) block7 [9] receipts7 21000
     = None.
Proof. split; reflexivity. Qed.


End ValidateStateExamples.

(** * Further properties of the code *)

(** ** Fixed-width identifiers *)

Lemma firstn_repeat_le (x : Z) (n m : nat) :
  (n <= m)%nat -> firstn n (repeat x m) = repeat x n.
Proof.
  revert m; induction n as [|n IH]; intros m Hle; [reflexivity|].
  destruct m as [|m]; [lia|]. simpl. f_equal. apply IH. lia.
Qed.

Lemma BytesToAddress_cases (b : list Z) :
  ((length b <= AddressLength)%nat ->
     BytesToAddress b = repeat 0 (AddressLength - length b) ++ b)
  /\ ((AddressLength < length b)%nat ->
        BytesToAddress b = skipn (length b - AddressLength) b).
Proof.
  split.
  - intros Hle. unfold BytesToAddress, Address_SetBytes.
    destruct (Nat.ltb_spec AddressLength (length b)); [lia|].
    now rewrite firstn_repeat_le by lia.
  - intros Hlt. unfold BytesToAddress, Address_SetBytes.
    destruct (Nat.ltb_spec AddressLength (length b)); [|lia].
    rewrite length_skipn.
    replace (AddressLength - (length b - (length b - AddressLength)))%nat
      with 0%nat by lia.
    reflexivity.
Qed.

(** X1. [BytesToAddress] always yields twenty bytes: a short input is
    right-aligned behind zero bytes, a long one keeps its last twenty
    bytes, and an input of twenty bytes is returned as it is. *)
Theorem BytesToAddress_aligns_right (b : list Z) :
  length (BytesToAddress b) = AddressLength
  /\ ((length b <= AddressLength)%nat ->
        BytesToAddress b = repeat 0 (AddressLength - length b) ++ b)
  /\ ((AddressLength < length b)%nat ->
        BytesToAddress b = skipn (length b - AddressLength) b)
  /\ (length b = AddressLength -> BytesToAddress b = b)
  /\ (Forall is_byte b -> wf_Address (BytesToAddress b)).
Proof.
  destruct (BytesToAddress_cases b) as [Hshort Hlong].
  assert (Hlen : length (BytesToAddress b) = AddressLength).
  { destruct (Nat.le_gt_cases (length b) AddressLength) as [Hle|Hlt].
    - rewrite (Hshort Hle), length_app, repeat_length. lia.
    - rewrite (Hlong Hlt), length_skipn. lia. }
  split; [exact Hlen|]. split; [exact Hshort|]. split; [exact Hlong|].
  split.
  - intros E. rewrite Hshort by lia. now rewrite E, Nat.sub_diag.
  - intros Hb. split; [exact Hlen|].
    destruct (Nat.le_gt_cases (length b) AddressLength) as [Hle|Hlt].
    + rewrite (Hshort Hle). apply Forall_app. split; [|exact Hb].
      apply List.Forall_forall. intros x Hx%repeat_spec. subst x.
      unfold is_byte. lia.
    + rewrite (Hlong Hlt). apply List.Forall_forall. intros x Hx.
      rewrite List.Forall_forall in Hb. apply Hb.
      rewrite <- (firstn_skipn (length b - AddressLength) b).
      apply in_or_app. now right.
Qed.

Lemma BytesToAddress_aligns_right_witness :
  BytesToAddress [7; 8] = repeat 0 18 ++ [7; 8]
  /\ BytesToAddress (1 :: 2 :: repeat 9 20) = repeat 9 20.
Proof.
  split.
  - destruct (BytesToAddress_aligns_right [7; 8]) as (_ & H & _).
    apply H. vm_compute. repeat constructor.
  - destruct (BytesToAddress_aligns_right (1 :: 2 :: repeat 9 20))
      as (_ & _ & H & _).
    apply H. vm_compute. repeat constructor.
Defined.

(** X2. [Address.Hash] pads an address with twelve zero bytes on the left, and
    [BytesToAddress] of the bytes of that hash gives the address back;
    [BytesToHash] of a hash's bytes is that hash. *)
Theorem Address_Hash_round_trip (a : Address) :
  length a = AddressLength ->
  Address_Hash a = repeat 0 12 ++ a
  /\ length (Address_Hash a) = HashLength
  /\ BytesToAddress (Hash_Bytes (Address_Hash a)) = a
  /\ BytesToHash (Hash_Bytes (Address_Hash a)) = Address_Hash a.
Proof.
  intros Hlen.
  assert (E : Address_Hash a = repeat 0 12 ++ a).
  { unfold Address_Hash, BytesToHash, Hash_SetBytes. rewrite Hlen.
    change (HashLength <? AddressLength)%nat with false. cbv iota.
    rewrite Hlen. reflexivity. }
  assert (L : length (Address_Hash a) = HashLength).
  { rewrite E, length_app, repeat_length, Hlen. reflexivity. }
  split; [exact E|]. split; [exact L|]. split.
  - unfold Hash_Bytes.
    destruct (BytesToAddress_cases (Address_Hash a)) as [_ H].
    rewrite H by (rewrite L; unfold HashLength, AddressLength; lia).
    rewrite L, E. reflexivity.
  - unfold Hash_Bytes, BytesToHash, Hash_SetBytes. rewrite L.
    rewrite Nat.ltb_irrefl, L, Nat.sub_diag. reflexivity.
Qed.

Lemma Address_Hash_round_trip_witness :
  BytesToAddress (Hash_Bytes (Address_Hash (75 :: repeat 1 19)))
  = 75 :: repeat 1 19.
Proof.
  destruct (Address_Hash_round_trip (75 :: repeat 1 19) eq_refl)
    as (_ & _ & H & _).
  exact H.
Defined.

(** ** Validity and naming of locations *)

Lemma Name_registered (l : Location) (name : string) :
  Location_Name l = Ret name -> is_Some (locationToPrefixRange !! name).
Proof.
  unfold Location_Name, Location_Context, Location_AssertValid,
    Location_HasRegion, Location_HasZone, NumRegionsInPrime, NumZonesInRegion.
  generalize (Location_Region l) (Location_Zone l). intros rg zn.
  cbv zeta. unfold mbind, exec_bind.
  destruct (Z.geb_spec rg 0), (Z.geb_spec zn 0); simpl negb; simpl andb;
    cbv iota; try discriminate;
    repeat match goal with
    | |- context [?x >=? 3] => destruct (Z.geb_spec x 3)
    end; try discriminate.
  - assert (Hr : rg = 0 \/ rg = 1 \/ rg = 2) by lia.
    assert (Hz : zn = 0 \/ zn = 1 \/ zn = 2) by lia.
    destruct Hr as [ -> | [ -> | -> ] ], Hz as [ -> | [ -> | -> ] ];
      intros [= <-]; vm_compute; eauto.
  - assert (Hr : rg = 0 \/ rg = 1 \/ rg = 2) by lia.
    destruct Hr as [ -> | [ -> | -> ] ]; intros [= <-]; vm_compute; eauto.
  - intros [= <-]; vm_compute; eauto.
Qed.

Lemma Region_Zone_firstn (loc : Location) :
  Location_Region (firstn 2 loc) = Location_Region loc
  /\ Location_Zone (firstn 2 loc) = Location_Zone loc.
Proof. destruct loc as [|r [|z rest]]; split; reflexivity. Qed.

Lemma Context_Name_by_coords (l l' : Location) :
  Location_Region l = Location_Region l' ->
  Location_Zone l = Location_Zone l' ->
  Location_AssertValid l = Location_AssertValid l'
  /\ Location_Context l = Location_Context l'
  /\ Location_Name l = Location_Name l'.
Proof.
  intros Er Ez.
  unfold Location_Name, Location_Context, Location_AssertValid,
    Location_HasRegion, Location_HasZone.
  rewrite Er, Ez. repeat split; reflexivity.
Qed.

(** X3. The only fatal exit of [ContainsAddress] is the one of [AssertValid]:
    the name of a location that passes [AssertValid] is always a key of the
    table, so the lookup never misses. *)
Theorem ContainsAddress_lookup_never_misses (l : Location) (a : Address) :
  (forall name, Location_Name l = Ret name ->
                is_Some (locationToPrefixRange !! name))
  /\ (Location_ContainsAddress l a = Fatal
      <-> Location_AssertValid l = Fatal)
  /\ (Location_Name l = Fatal <-> Location_AssertValid l = Fatal).
Proof.
  split; [intros name; apply Name_registered|].
  assert (Hname : Location_Name l = Fatal <-> Location_AssertValid l = Fatal).
  { unfold Location_Name, Location_Context. cbv zeta.
    destruct (Location_AssertValid l); unfold mbind, exec_bind.
    - tauto.
    - split; [|discriminate].
      destruct (Location_Zone l >=? 0); [discriminate|].
      destruct (Location_Region l >=? 0); discriminate. }
  split; [|exact Hname].
  rewrite <- Hname. unfold Location_ContainsAddress. cbv zeta.
  destruct (Location_Name l) as [|name] eqn:E; unfold mbind, exec_bind.
  - tauto.
  - destruct (Name_registered _ _ E) as [rg Hrg]. rewrite Hrg.
    split; discriminate.
Qed.

(** X4. For a location made of bytes, only the first two coordinates count:
    [Context], [Name] and [ContainsAddress] read the location as the one
    made of its first two coordinates, and [Context] exits fatally exactly
    when one of these two is 3 or more. *)
Theorem Context_reads_two_coordinates (loc : Location) :
  Forall is_byte loc ->
  (Location_Context loc = Fatal <-> ~ valid_Location (firstn 2 loc))
  /\ (valid_Location (firstn 2 loc) ->
        Location_Context loc = Ret (Z.of_nat (Nat.min 2 (length loc))))
  /\ Location_Context loc = Location_Context (firstn 2 loc)
  /\ Location_Name loc = Location_Name (firstn 2 loc)
  /\ (forall a, Location_ContainsAddress loc a
                = Location_ContainsAddress (firstn 2 loc) a).
Proof.
  intros Hb.
  destruct (Region_Zone_firstn loc) as [Er Ez].
  destruct (Context_Name_by_coords (firstn 2 loc) loc Er Ez)
    as (_ & Ec & En).
  assert (Hcases :
    (valid_Location (firstn 2 loc)
     /\ Location_Context (firstn 2 loc)
        = Ret (Z.of_nat (Nat.min 2 (length loc))))
    \/ (~ valid_Location (firstn 2 loc)
        /\ Location_Context (firstn 2 loc) = Fatal)).
  { destruct loc as [|r [|z rest]].
    - left. split; [exact I | reflexivity].
    - apply Forall_inv in Hb. unfold is_byte in Hb.
      unfold Location_Context, Location_AssertValid, Location_HasRegion,
        Location_HasZone, Location_Region, Location_Zone, index,
        NumRegionsInPrime, NumZonesInRegion. simpl.
      unfold NumRegionsInPrime.
      destruct (Z.geb_spec r 0); [|lia]. simpl.
      destruct (Z.geb_spec r 3); [right | left]; split;
        (reflexivity || lia).
    - pose proof (Forall_inv Hb) as Hr.
      pose proof (Forall_inv (Forall_inv_tail Hb)) as Hz.
      unfold is_byte in Hr, Hz.
      unfold Location_Context, Location_AssertValid, Location_HasRegion,
        Location_HasZone, Location_Region, Location_Zone, index,
        NumRegionsInPrime, NumZonesInRegion. simpl.
      unfold NumRegionsInPrime, NumZonesInRegion.
      destruct (Z.geb_spec r 0); [|lia].
      destruct (Z.geb_spec z 0); [|lia]. simpl.
      destruct (Z.geb_spec r 3); [right; split; [lia | reflexivity]|].
      destruct (Z.geb_spec z 3); [right | left]; split;
        (reflexivity || lia). }
  rewrite <- Ec.
  split; [|split; [|split; [reflexivity|split; [now rewrite En|]]]].
  - destruct Hcases as [[Hv E] | [Hv E]]; rewrite E; split;
      try discriminate; tauto.
  - intros Hv. destruct Hcases as [[_ E] | [Hn _]]; [exact E | tauto].
  - intros a. unfold Location_ContainsAddress. now rewrite En.
Qed.

Lemma Context_reads_two_coordinates_witness :
  Location_Context [1; 2; 200] = Ret 2
  /\ Location_Context [1; 3; 0] = Fatal.
Proof.
  split.
  - assert (Hb : Forall is_byte [1; 2; 200])
      by (repeat constructor; vm_compute; closed_cmp).
    destruct (Context_reads_two_coordinates [1; 2; 200] Hb) as (_ & H & _).
    apply H. vm_compute. repeat split; closed_cmp.
  - assert (Hb : Forall is_byte [1; 3; 0])
      by (repeat constructor; vm_compute; closed_cmp).
    destruct (Context_reads_two_coordinates [1; 3; 0] Hb) as (H & _).
    apply H. vm_compute. intros [_ [_ E]]. discriminate E.
Defined.

(** X5. Distinct valid locations have distinct names. *)
Theorem Name_injective (l1 l2 : Location) :
  valid_Location l1 -> valid_Location l2 ->
  Location_Name l1 = Location_Name l2 -> l1 = l2.
Proof.
  intros H1%valid_Location_enum H2%valid_Location_enum.
  assert (T : forallb (fun x => forallb (fun y =>
                bool_decide (Location_Name x = Location_Name y -> x = y))
                all_locations) all_locations = true)
    by (vm_compute; reflexivity).
  rewrite forallb_forall in T. specialize (T _ H1).
  rewrite forallb_forall in T. specialize (T _ H2).
  now apply bool_decide_eq_true in T.
Qed.

Lemma Name_injective_witness :
  Location_Name [0; 1] <> Location_Name [1; 0].
Proof.
  intros E.
  assert (H : [0; 1] = [1; 0]).
  { apply Name_injective; [ | | exact E];
      vm_compute; repeat split; closed_cmp. }
  discriminate H.
Defined.

(** ** Navigation in the hierarchy *)

Lemma firstn_pred_snoc (l : Location) :
  l <> [] -> firstn (length l - 1) l ++ [index l (length l - 1)] = l.
Proof.
  intros Hne. assert (Hlen : (0 < length l)%nat)
    by (destruct l; [congruence | simpl; lia]).
  transitivity (firstn (length l - 1) l ++ skipn (length l - 1) l);
    [|apply firstn_skipn].
  f_equal. rewrite skipn_index by lia.
  replace (S (length l - 1)) with (length l) by lia.
  now rewrite skipn_all.
Qed.

Lemma Context_of_valid (l : Location) :
  valid_Location l -> Location_Context l = Ret (Z.of_nat (length l)).
Proof.
  destruct l as [|r [|z [|x l]]]; simpl; intros Hv; try contradiction.
  - reflexivity.
  - unfold NumRegionsInPrime in Hv.
    unfold Location_Context, Location_AssertValid, Location_HasRegion,
      Location_HasZone, Location_Region, Location_Zone, index,
      NumRegionsInPrime, NumZonesInRegion. simpl.
    destruct (Z.geb_spec r 0); [|lia]. destruct (Z.geb_spec r 3); [lia|].
    reflexivity.
  - unfold NumRegionsInPrime, NumZonesInRegion in Hv.
    unfold Location_Context, Location_AssertValid, Location_HasRegion,
      Location_HasZone, Location_Region, Location_Zone, index,
      NumRegionsInPrime, NumZonesInRegion. simpl.
    destruct (Z.geb_spec r 0); [|lia]. destruct (Z.geb_spec r 3); [lia|].
    destruct (Z.geb_spec z 0); [|lia]. destruct (Z.geb_spec z 3); [lia|].
    reflexivity.
Qed.



(** X7. On a node that is not a zone, [SubIndex] of a location is the
    coordinate that [SubInSlice] adds to the node's own location, and is
    [-1] exactly when [SubInSlice] finds no subordinate; on a zone node it
    is always [-1]. *)
Theorem SubIndex_is_SubInSlice_coordinate (NodeLocation loc : Location) :
  valid_Location NodeLocation -> Forall is_byte loc ->
  ((length NodeLocation < 2)%nat ->
     (length NodeLocation < length loc)%nat ->
     Location_SubIndex NodeLocation loc
     = Ret (index (Location_SubInSlice NodeLocation loc)
                  (length NodeLocation)))
  /\ ((length NodeLocation < 2)%nat ->
      (Location_SubIndex NodeLocation loc = Ret (-1)
       <-> Location_SubInSlice NodeLocation loc = []))
  /\ (length NodeLocation = 2%nat ->
      Location_SubIndex NodeLocation loc = Ret (-1)).
Proof.
  intros Hv Hb.
  assert (Hctx : Location_Context NodeLocation
                 = Ret (Z.of_nat (length NodeLocation)))
    by (now apply Context_of_valid).
  assert (Hnn : forall i, 0 <= index loc i).
  { intros i. unfold index. destruct (nth_in_or_default i loc 0) as [Hin|E].
    - rewrite List.Forall_forall in Hb. apply Hb in Hin.
      unfold is_byte in Hin. lia.
    - rewrite E. lia. }
  unfold Location_SubIndex. rewrite Hctx. unfold mbind, exec_bind.
  destruct NodeLocation as [|r [|z [|x l]]]; try contradiction; simpl length.
  - split; [|split; [|intros [=]]].
    + intros _ Hlt. simpl. unfold Location_SubInSlice, Location_Region.
      destruct loc as [|c loc']; [simpl in Hlt; lia|]. reflexivity.
    + intros _. simpl. unfold Location_SubInSlice, Location_Region.
      destruct loc as [|c loc']; simpl; [tauto|].
      specialize (Hnn 0%nat). unfold index in *. simpl in *.
      split; [intros [= E]; lia | discriminate].
  - split; [|split; [|intros [=]]].
    + intros _ Hlt. simpl. unfold Location_SubInSlice, Location_Zone.
      destruct loc as [|c [|c' loc']]; simpl in Hlt; try lia. reflexivity.
    + intros _. simpl. unfold Location_SubInSlice, Location_Zone.
      destruct loc as [|c [|c' loc']]; simpl; try tauto.
      specialize (Hnn 1%nat). unfold index in *. simpl in *.
      split; [intros [= E]; lia | discriminate].
  - split; [lia|]. split; [lia|]. reflexivity.
Qed.

Lemma SubIndex_is_SubInSlice_coordinate_witness :
  Location_SubIndex [1] [1; 2] = Ret 2
  /\ Location_SubIndex [1; 0] [1; 2] = Ret (-1).
Proof.
  assert (Hb : Forall is_byte [1; 2])
    by (repeat constructor; vm_compute; closed_cmp).
  split.
  - assert (Hv : valid_Location [1]) by (vm_compute; split; closed_cmp).
    destruct (SubIndex_is_SubInSlice_coordinate [1] [1; 2] Hv Hb)
      as (H & _).
    apply H; vm_compute; repeat constructor.
  - assert (Hv : valid_Location [1; 0])
      by (vm_compute; repeat split; closed_cmp).
    destruct (SubIndex_is_SubInSlice_coordinate [1; 0] [1; 2] Hv Hb)
      as (_ & _ & H).
    apply H. reflexivity.
Defined.

Lemma common_prefix_comm (a b : Location) :
  common_prefix a b = common_prefix b a.
Proof.
  revert b; induction a as [|x a IH]; intros [|y b]; simpl; try reflexivity.
  rewrite (Z.eqb_sym y x).
  destruct (Z.eqb_spec x y) as [->|]; [|reflexivity]. now rewrite IH.
Qed.

Lemma common_prefix_idem (a : Location) : common_prefix a a = a.
Proof.
  induction a as [|x a IH]; simpl; [reflexivity|].
  now rewrite Z.eqb_refl, IH.
Qed.

Lemma common_prefix_assoc (a b c : Location) :
  common_prefix (common_prefix a b) c = common_prefix a (common_prefix b c).
Proof.
  revert b c; induction a as [|x a IH]; intros [|y b] [|z c]; simpl;
    try reflexivity.
  - now destruct (x =? y).
  - destruct (Z.eqb_spec x y) as [->|Hxy]; simpl.
    + destruct (Z.eqb_spec y z) as [->|Hyz]; simpl; [|reflexivity].
      now rewrite Z.eqb_refl, IH.
    + destruct (Z.eqb_spec y z) as [->|Hyz]; simpl; [|reflexivity].
      destruct (Z.eqb_spec x z); [congruence | reflexivity].
Qed.

(** X8. [CommonDom] is commutative, associative and idempotent: the common
    dominant of several chains does not depend on the order in which they
    are compared. *)
Theorem CommonDom_semilattice (a b c : Location) :
  Location_CommonDom a b = Location_CommonDom b a
  /\ Location_CommonDom (Location_CommonDom a b) c
     = Location_CommonDom a (Location_CommonDom b c)
  /\ Location_CommonDom a a = a
  /\ Location_CommonDom a [] = [].
Proof.
  rewrite !CommonDom_common_prefix. split; [apply common_prefix_comm|].
  split; [apply common_prefix_assoc|].
  split; [apply common_prefix_idem | apply common_prefix_nil_r].
Qed.

(** X9. Every location is in the slice of prime, of its dominant and of its
    common dominant with any other location; two locations of the same
    depth are in the same slice only when they are equal; and two locations
    are in the same slice exactly when their common dominant is as deep as
    the shallower of the two. *)
Theorem InSameSliceAs_slices (a b : Location) :
  Location_InSameSliceAs [] a = true
  /\ Location_InSameSliceAs (Location_DomLocation a) a = true
  /\ Location_InSameSliceAs (Location_CommonDom a b) a = true
  /\ (length a = length b ->
        (Location_InSameSliceAs a b = true <-> a = b))
  /\ (Location_InSameSliceAs a b = true
      <-> length (Location_CommonDom a b)
          = Nat.min (length a) (length b)).
Proof.
  rewrite !InSameSliceAs_iff, CommonDom_common_prefix.
  split; [left; now exists a|].
  split.
  { left. unfold Location_DomLocation.
    destruct (Nat.ltb_spec (length a) 1); [now exists a|].
    exists (skipn (length a - 1) a). symmetry. apply firstn_skipn. }
  split; [left; apply common_prefix_l|].
  split.
  - intros Hlen. split.
    + intros [H | H]; [|symmetry];
        now apply is_prefix_same_length.
    + intros ->. left. apply is_prefix_refl.
  - pose proof (common_prefix_l a b) as Hl.
    pose proof (common_prefix_r a b) as Hr.
    split.
    + intros [H | H].
      * destruct (common_prefix_of_prefix a b H) as [E _]. rewrite E.
        apply is_prefix_length in H. lia.
      * destruct (common_prefix_of_prefix b a H) as [_ E]. rewrite E.
        apply is_prefix_length in H. lia.
    + intros E.
      destruct (Nat.le_ge_cases (length a) (length b)) as [Hle | Hge].
      * left. rewrite <- (is_prefix_same_length _ _ Hl) by lia. exact Hr.
      * right. rewrite <- (is_prefix_same_length _ _ Hr) by lia. exact Hl.
Qed.

Lemma InSameSliceAs_slices_witness :
  Location_InSameSliceAs [0; 1] [0; 2] = true <-> [0; 1] = [0; 2].
Proof.
  destruct (InSameSliceAs_slices [0; 1] [0; 2]) as (_ & _ & _ & H & _).
  apply H. reflexivity.
Defined.

(** ** Address binding, continued *)

(** X10. The location found for an address does not depend on the node that
    asks: the order of the search changes nothing in its answer. *)
Theorem Location_independent_of_node (N1 N2 : Location) (a : Address) :
  wf_Address a -> Address_Location N1 a = Address_Location N2 a.
Proof.
  intros Hp%wf_Address_first_byte. now rewrite !Address_Location_spec.
Qed.

Lemma Location_independent_of_node_witness :
  Address_Location [] (64 :: repeat 3 19)
  = Address_Location [2; 2] (64 :: repeat 3 19).
Proof.
  apply Location_independent_of_node.
  split; [reflexivity|]. repeat constructor; vm_compute; closed_cmp.
Defined.

(** X11. The zero address is in the scope of every node, even one whose
    location is invalid.  For a valid node location, an address is in scope
    exactly when it is the zero address or [Address.Location] binds it to
    the node's own location; for an invalid one, a non-zero address ends
    the process. *)
Theorem IsInChainScope_iff (NodeLocation : Location) (a : Address) :
  Address_IsInChainScope NodeLocation ZeroAddr = Ret true
  /\ (wf_Address a -> valid_Location NodeLocation ->
        exists b, Address_IsInChainScope NodeLocation a = Ret b
                  /\ (b = true <->
                      a = ZeroAddr
                      \/ Address_Location NodeLocation a
                         = Ret (Some NodeLocation)))
  /\ (a <> ZeroAddr -> Location_AssertValid NodeLocation = Fatal ->
        Address_IsInChainScope NodeLocation a = Fatal).
Proof.
  split; [reflexivity|]. split.
  - intros Hwf Hv. pose proof (wf_Address_first_byte _ Hwf) as Hp.
    unfold Address_IsInChainScope.
    destruct (bytes_Equal a ZeroAddr) eqn:E.
    + apply bytes_Equal_eq in E. exists true. tauto.
    + rewrite ContainsAddress_spec by assumption.
      rewrite Address_Location_spec by assumption.
      eexists; split; [reflexivity|].
      rewrite bool_decide_eq_true. split.
      * intros ->. now right.
      * intros [-> | [= H]]; [|exact H].
        rewrite bytes_Equal_refl in E. discriminate.
  - intros Hne Hf. unfold Address_IsInChainScope.
    destruct (bytes_Equal a ZeroAddr) eqn:E.
    + apply bytes_Equal_eq in E. contradiction.
    + unfold Location_ContainsAddress, Location_Name, Location_Context.
      now rewrite Hf.
Qed.

Lemma IsInChainScope_iff_witness :
  Address_IsInChainScope [1; 1] (75 :: repeat 0 19) = Ret true
  /\ Address_IsInChainScope [1; 3] (75 :: repeat 0 19) = Fatal.
Proof.
  assert (Hwf : wf_Address (75 :: repeat 0 19)).
  { split; [reflexivity|]. repeat constructor; vm_compute; closed_cmp. }
  split.
  - assert (Hv : valid_Location [1; 1])
      by (vm_compute; repeat split; closed_cmp).
    destruct (IsInChainScope_iff [1; 1] (75 :: repeat 0 19))
      as (_ & H & _).
    destruct (H Hwf Hv) as (b & E & Hb). rewrite E. f_equal.
    apply Hb. right. vm_compute. reflexivity.
  - destruct (IsInChainScope_iff [1; 3] (75 :: repeat 0 19))
      as (_ & _ & H).
    apply H; [discriminate | reflexivity].
Defined.

(** ** The block validator, continued *)

(** Settles one equivalence between an outcome of the validator and the
    checks that lead to it, once the checks have been split by cases. *)
Ltac early_left E :=
  repeat match type of E with
         | (if ?b then _ else _) = _ => destruct b
         end;
  first [ discriminate E
        | inversion E; subst; repeat split;
          first [reflexivity | assumption | congruence] ].

Ltac early_iff :=
  split;
  [ let E := fresh "E" in intros E; early_left E
  | let H := fresh "H" in
    intros H; decompose [and] H; clear H; subst;
    first [reflexivity | congruence] ].

Section ValidateBodyOutcomes.
Import types consensus core.
Context `{C : Chain} `{!Engine} `{!Backend}.

(** X12. [ValidateBody] accepts a block exactly when the block is not known
    yet, the engine accepts its uncles, its three roots match, its
    manifest passes on a node that has subordinates, and its parent is
    present with its state.  It ends the process exactly when the node's
    own location is invalid. *)
Theorem ValidateBody_accepts_iff (NodeLocation : Location) (block : Block) :
  (ValidateBody NodeLocation block = Fatal
   <-> Location_Context NodeLocation = Fatal)
  /\ (forall nodeCtx,
        Location_Context NodeLocation = Ret nodeCtx ->
        (ValidateBody NodeLocation block = Ret None
         <-> HasBlockAndState (Block_Hash block) (Block_NumberU64 block)
             = false
             /\ body_roots_ok block
             /\ (nodeCtx < ZONE_CTX -> ~ bad_sub_manifest nodeCtx block)
             /\ HasBlockAndState (Block_ParentHash block)
                                 (u64 (Block_NumberU64 block - 1)) = true)).
Proof.
  split.
  - unfold ValidateBody.
    destruct (Location_Context NodeLocation) as [|nodeCtx];
      unfold mbind, exec_bind; [tauto|]. cbv zeta.
    split; [|discriminate]. intros E. exfalso.
    destruct (HasBlockAndState (Block_Hash block) _); [discriminate|].
    destruct (VerifyUncles block); [discriminate|].
    repeat (match type of E with
            | (if ?b then _ else _) = _ => destruct b; try discriminate
            end).
  - intros nodeCtx Hctx. split.
    + intros E.
      assert (Hk : HasBlockAndState (Block_Hash block) (Block_NumberU64 block)
                   = false).
      { destruct (HasBlockAndState (Block_Hash block) _) eqn:Hk;
          [|reflexivity].
        apply (ValidateBody_known _ _ _ Hctx) in Hk. congruence. }
      assert (Hr : body_roots_ok block).
      { revert E. unfold ValidateBody, body_roots_ok. rewrite Hctx.
        unfold mbind, exec_bind. cbv zeta. rewrite Hk.
        destruct (VerifyUncles block); [discriminate|].
        destruct (Hash_neq (CalcUncleHash _) _) eqn:Eu; [discriminate|].
        destruct (Hash_neq (DeriveSha_Transactions (Block_Transactions block))
                           _) eqn:Et; [discriminate|].
        destruct (Hash_neq
                    (DeriveSha_Transactions (Block_ExtTransactions block)) _)
          eqn:Ee; [discriminate|].
        intros _. apply Hash_neq_false in Eu, Et, Ee.
        repeat split; assumption. }
      rewrite (ValidateBody_after_roots _ _ _ Hctx Hk Hr) in E.
      split; [exact Hk|]. split; [exact Hr|].
      destruct (Z.ltb_spec nodeCtx ZONE_CTX) as [Hlt|Hge].
      * destruct (_ || _) eqn:Eb; simpl in E; [discriminate|]. split.
        -- intros _ Hbad. apply bad_sub_manifest_bool in Hbad. congruence.
        -- destruct (HasBlockAndState (Block_ParentHash block) _);
             [reflexivity|]. simpl in E. destruct (negb _); discriminate.
      * simpl in E. split; [lia|].
        destruct (HasBlockAndState (Block_ParentHash block) _);
          [reflexivity|]. simpl in E. destruct (negb _); discriminate.
    + intros (Hk & Hr & Hm & Hp).
      rewrite (ValidateBody_after_roots _ _ _ Hctx Hk Hr), Hp.
      destruct (Z.ltb_spec nodeCtx ZONE_CTX) as [Hlt|Hge]; [|reflexivity].
      destruct (_ || _) eqn:Eb; [|reflexivity].
      apply bad_sub_manifest_bool in Eb. now apply Hm in Eb.
Qed.

(** X13. Each early error of [ValidateBody] names the first check that failed
    and carries the two values compared: the engine's refusal comes back
    unchanged for a block that is not known, and a root mismatch is
    reported, with the root computed and the root declared, for a block
    that passed every check before it. *)
Theorem ValidateBody_early_errors (NodeLocation : Location) (block : Block)
  (nodeCtx : Z) :
  Location_Context NodeLocation = Ret nodeCtx ->
  let header := Block_Header block in
  let fresh :=
    HasBlockAndState (Block_Hash block) (Block_NumberU64 block) = false in
  (forall err,
     ValidateBody NodeLocation block = Ret (Some (ErrEngine err))
     <-> fresh /\ VerifyUncles block = Some err)
  /\ (forall have want,
        ValidateBody NodeLocation block = Ret (Some (ErrUncleRoot have want))
        <-> fresh /\ VerifyUncles block = None
            /\ have = CalcUncleHash (Block_Uncles block)
            /\ want = Header_UncleHash header /\ have <> want)
  /\ (forall have want,
        ValidateBody NodeLocation block = Ret (Some (ErrTxRoot have want))
        <-> fresh /\ VerifyUncles block = None
            /\ CalcUncleHash (Block_Uncles block) = Header_UncleHash header
            /\ have = DeriveSha_Transactions (Block_Transactions block)
            /\ want = Header_TxHash header /\ have <> want)
  /\ (forall have want,
        ValidateBody NodeLocation block = Ret (Some (ErrEtxRoot have want))
        <-> fresh /\ VerifyUncles block = None
            /\ CalcUncleHash (Block_Uncles block) = Header_UncleHash header
            /\ DeriveSha_Transactions (Block_Transactions block)
               = Header_TxHash header
            /\ have = DeriveSha_Transactions (Block_ExtTransactions block)
            /\ want = Header_EtxHash header /\ have <> want).
Proof.
  intros Hctx header fresh. subst fresh header.
  unfold ValidateBody. rewrite Hctx. unfold mbind, exec_bind. cbv zeta.
  destruct (HasBlockAndState (Block_Hash block) _);
    [split; [|split; [|split]]; intros; early_iff|].
  destruct (VerifyUncles block) as [e|];
    [split; [|split; [|split]]; intros; early_iff|].
  destruct (Hash_neq (CalcUncleHash _) _) eqn:Eu;
    [apply Hash_neq_true in Eu | apply Hash_neq_false in Eu];
    [split; [|split; [|split]]; intros; early_iff|].
  destruct (Hash_neq (DeriveSha_Transactions (Block_Transactions block)) _)
    eqn:Et; [apply Hash_neq_true in Et | apply Hash_neq_false in Et];
    [split; [|split; [|split]]; intros; early_iff|].
  destruct (Hash_neq (DeriveSha_Transactions (Block_ExtTransactions block)) _)
    eqn:Ee; [apply Hash_neq_true in Ee | apply Hash_neq_false in Ee];
    (split; [|split; [|split]]); intros; early_iff.
Qed.

End ValidateBodyOutcomes.

Section ValidateBodyOutcomeExamples.
Import example.

Lemma ValidateBody_accepts_iff_witness :
  core.ValidateBody (H1 := backend store_full) [1] block7 = Ret None.
Proof.
  destruct (@ValidateBody_accepts_iff chain engine (backend store_full)
              [1] block7) as [_ H].
  apply (H 1 eq_refl).
  split; [reflexivity|]. split; [repeat split; reflexivity|].
  split; [|reflexivity].
  intros _ [E | E]; [discriminate E | now apply E].
Defined.

Lemma ValidateBody_early_errors_witness :
  core.ValidateBody (H1 := backend store_full) [1] block7_other_tx
  = Ret (Some (core.ErrTxRoot [99] [11])).
Proof.
  destruct (@ValidateBody_early_errors chain engine (backend store_full)
              [1] block7_other_tx 1 eq_refl) as (_ & _ & H & _).
  apply H. repeat split; try reflexivity. discriminate.
Defined.

End ValidateBodyOutcomeExamples.

(** ** The state validator, continued *)

Section ValidateStateOutcomes.
Import types consensus core.
Context `{C : Chain} `{!ReceiptOps} `{!Engine} `{!Backend}.

(** X14. [ValidateState] accepts exactly when the gas used, the bloom, the
    receipt root and the state root (computed without error) are the
    declared ones, the root of the emitted external transactions is the
    header's, and the rollup is available with the declared root. *)
Theorem ValidateState_accepts_iff (block : Block) (statedb : StateDB)
  (receipts : list Receipt) (usedGas : Z) :
  ValidateState block statedb receipts usedGas = None
  <-> state_roots_ok block statedb receipts usedGas
      /\ DeriveSha_Transactions (emitted_spec receipts)
         = Header_EtxHash (Block_Header block)
      /\ exists etxRollup,
           CollectEtxRollup block = Some etxRollup
           /\ DeriveSha_Transactions etxRollup
              = Header_EtxRollupHash (Block_Header block).
Proof.
  split.
  - intros E.
    assert (Hok : state_roots_ok block statedb receipts usedGas).
    { revert E. unfold ValidateState, state_roots_ok. cbv zeta.
      destruct (Z.eqb_spec (Block_GasUsed block) usedGas) as [Hg|];
        [|discriminate]. simpl negb. cbv iota.
      destruct (bytes_Equal (CreateBloom receipts) _) eqn:Hb; [|discriminate].
      simpl negb. cbv iota. apply bytes_Equal_eq in Hb.
      destruct (Hash_neq (DeriveSha_Receipts receipts) _) eqn:Hr;
        [discriminate|].
      apply Hash_neq_false in Hr.
      destruct (IntermediateRoot statedb _) as [root [err|]] eqn:Hs.
      - rewrite bool_decide_eq_true_2 by eauto. rewrite orb_true_r.
        discriminate.
      - destruct (Hash_neq (Header_Root (Block_Header block)) root)
          eqn:Hroot; [simpl; discriminate|].
        apply Hash_neq_false in Hroot. subst root. intros _.
        repeat split; assumption. }
    split; [exact Hok|].
    rewrite (ValidateState_after_roots _ _ _ _ Hok) in E. cbv zeta in E.
    destruct (Hash_neq (DeriveSha_Transactions (emitted_spec receipts)) _)
      eqn:Ee; [discriminate|].
    apply Hash_neq_false in Ee. split; [exact Ee|].
    destruct (CollectEtxRollup block) as [etxRollup|]; [|discriminate].
    exists etxRollup. split; [reflexivity|].
    destruct (Hash_neq (DeriveSha_Transactions etxRollup) _) eqn:Er;
      [discriminate|].
    now apply Hash_neq_false in Er.
  - intros (Hok & Ee & etxRollup & Hc & Er).
    rewrite (ValidateState_after_roots _ _ _ _ Hok). cbv zeta.
    rewrite (proj2 (Hash_neq_false _ _) Ee), Hc.
    now rewrite (proj2 (Hash_neq_false _ _) Er).
Qed.

(** X15. The two failures of a collaborator: an error of the state database is
    passed on, whatever root came with it, for a block that passed the gas,
    bloom and receipt-root checks; and a rollup that cannot be computed is
    reported for a block that passed every check before it. *)
Theorem ValidateState_collaborator_errors (block : Block) (statedb : StateDB)
  (receipts : list Receipt) (usedGas : Z) :
  let header := Block_Header block in
  (forall err,
     ValidateState block statedb receipts usedGas = Some (ErrStore err)
     <-> Block_GasUsed block = usedGas
         /\ CreateBloom receipts = Header_Bloom header
         /\ DeriveSha_Receipts receipts = Header_ReceiptHash header
         /\ snd (IntermediateRoot statedb (IsEIP158 (Header_Number header)))
            = Some err)
  /\ (ValidateState block statedb receipts usedGas = Some ErrEtxRollup
      <-> state_roots_ok block statedb receipts usedGas
          /\ DeriveSha_Transactions (emitted_spec receipts)
             = Header_EtxHash header
          /\ CollectEtxRollup block = None).
Proof.
  intros header. subst header. split.
  - intros err. unfold ValidateState. cbv zeta.
    destruct (Z.eqb_spec (Block_GasUsed block) usedGas) as [Hg|Hg];
      simpl negb; cbv iota; [|split; [discriminate | tauto]].
    destruct (bytes_Equal (CreateBloom receipts) _) eqn:Hb; simpl negb;
      cbv iota.
    2:{ split; [discriminate|]. intros (_ & E & _).
        apply bytes_Equal_eq in E. congruence. }
    apply bytes_Equal_eq in Hb.
    destruct (Hash_neq (DeriveSha_Receipts receipts) _) eqn:Hr.
    { apply Hash_neq_true in Hr. split; [discriminate | tauto]. }
    apply Hash_neq_false in Hr.
    destruct (IntermediateRoot statedb _) as [root [e|]]; simpl snd.
    + rewrite bool_decide_eq_true_2 by eauto. rewrite orb_true_r.
      split; [intros [= ->]; tauto | intros (_ & _ & _ & [= ->]); reflexivity].
    + rewrite bool_decide_eq_false_2 by (intros [? [=]]).
      rewrite orb_false_r.
      destruct (Hash_neq (Header_Root (Block_Header block)) root).
      * split; [discriminate | intros (_ & _ & _ & [=])].
      * split; [|intros (_ & _ & _ & [=])]. intros E. exfalso.
        destruct (Hash_neq _ _); [discriminate|].
        destruct (CollectEtxRollup block); [|discriminate].
        destruct (Hash_neq _ _); discriminate.
  - split.
    + intros E.
      assert (Hok : state_roots_ok block statedb receipts usedGas).
      { revert E. unfold ValidateState, state_roots_ok. cbv zeta.
        destruct (Z.eqb_spec (Block_GasUsed block) usedGas) as [Hg|];
          [|discriminate]. simpl negb. cbv iota.
        destruct (bytes_Equal (CreateBloom receipts) _) eqn:Hb;
          [|discriminate].
        simpl negb. cbv iota. apply bytes_Equal_eq in Hb.
        destruct (Hash_neq (DeriveSha_Receipts receipts) _) eqn:Hr;
          [discriminate|].
        apply Hash_neq_false in Hr.
        destruct (IntermediateRoot statedb _) as [root [err|]] eqn:Hs.
        - rewrite bool_decide_eq_true_2 by eauto. rewrite orb_true_r.
          discriminate.
        - destruct (Hash_neq (Header_Root (Block_Header block)) root)
            eqn:Hroot; [simpl; discriminate|].
          apply Hash_neq_false in Hroot. subst root. intros _.
          repeat split; assumption. }
      split; [exact Hok|].
      rewrite (ValidateState_after_roots _ _ _ _ Hok) in E. cbv zeta in E.
      destruct (Hash_neq (DeriveSha_Transactions (emitted_spec receipts)) _)
        eqn:Ee; [discriminate|].
      apply Hash_neq_false in Ee. split; [exact Ee|].
      destruct (CollectEtxRollup block) as [etxRollup|]; [|reflexivity].
      destruct (Hash_neq _ _); discriminate.
    + intros (Hok & Ee & Hc).
      rewrite (ValidateState_after_roots _ _ _ _ Hok). cbv zeta.
      now rewrite (proj2 (Hash_neq_false _ _) Ee), Hc.
Qed.

(** X16. The emission pass is a homomorphism of lists: the emission of two
    runs of receipts is the emission of the first followed by that of the
    second; and a transaction is emitted exactly when a successful receipt
    carries it. *)
Theorem collect_emitted_app (receipts1 receipts2 : list Receipt)
  (etx : Transaction) :
  collect_emitted [] (receipts1 ++ receipts2)
  = collect_emitted [] receipts1 ++ collect_emitted [] receipts2
  /\ (In etx (collect_emitted [] receipts1)
      <-> exists receipt,
            In receipt receipts1
            /\ Status receipt = ReceiptStatusSuccessful
            /\ In etx (Etxs receipt)).
Proof.
  rewrite !(collect_emitted_spec []). simpl app. unfold emitted_spec. split.
  - now rewrite List.filter_app, List.map_app, List.concat_app.
  - rewrite in_concat. split.
    + intros (l & Hl & Hin). apply in_map_iff in Hl as (r & <- & Hr).
      apply List.filter_In in Hr as [Hr Hs]. apply Z.eqb_eq in Hs. eauto.
    + intros (r & Hr & Hs & Hin). exists (Etxs r). split; [|exact Hin].
      apply in_map, List.filter_In. split; [exact Hr|].
      now apply Z.eqb_eq.
Qed.

End ValidateStateOutcomes.

(** ** The gas limit, continued *)

(** X17. A parent limit from the divisor up to twice the divisor has a [delta]
    of zero: [CalcGasLimit] returns it unchanged whatever limit is
    desired. *)
Theorem CalcGasLimit_stalls (c : params.Constants) (parent desired : Z) :
  params.wf_Constants c -> is_uint64 parent ->
  params.GasLimitBoundDivisor <= parent < 2 * params.GasLimitBoundDivisor ->
  core.CalcGasLimit parent desired = parent.
Proof.
  intros [[HD0 HD1] _] Hp [H1 H2]. unfold core.CalcGasLimit.
  assert (Eq : parent / params.GasLimitBoundDivisor = 1).
  { symmetry. apply Z.div_unique with (r := parent - params.GasLimitBoundDivisor);
      lia. }
  rewrite Eq. change (u64 (1 - 1)) with 0.
  rewrite Z.add_0_r, Z.sub_0_r, (u64_small parent Hp).
  set (target := if desired <? params.MinGasLimit
                 then params.MinGasLimit else desired).
  destruct (Z.ltb_spec parent target).
  - destruct (Z.gtb_spec parent target); [lia | reflexivity].
  - destruct (Z.gtb_spec parent target); reflexivity.
Qed.

Lemma CalcGasLimit_stalls_witness :
  core.CalcGasLimit (H := params.example_Constants) 2047 1000000 = 2047.
Proof.
  apply CalcGasLimit_stalls.
  - vm_compute. repeat split; closed_cmp.
  - vm_compute. split; closed_cmp.
  - vm_compute. split; closed_cmp.
Defined.

(** X18. Below the divisor the subtraction that computes [delta] wraps around:
    a parent limit of zero jumps to the target in one step, and any other
    parent limit below the divisor moves one unit away from the target. *)
Theorem CalcGasLimit_below_divisor (c : params.Constants)
  (parent desired : Z) :
  params.wf_Constants c -> is_uint64 parent -> is_uint64 desired ->
  parent < params.GasLimitBoundDivisor ->
  let target := Z.max desired params.MinGasLimit in
  (parent = 0 -> core.CalcGasLimit parent desired = target)
  /\ (0 < parent -> parent < target ->
        core.CalcGasLimit parent desired = parent - 1)
  /\ (target < parent -> core.CalcGasLimit parent desired = parent + 1).
Proof.
  intros [[HD0 HD1] [HM0 HM1]] [Hp0 Hp1] [Hd0 Hd1] Hlt target.
  unfold core.CalcGasLimit.
  rewrite (Z.div_small parent) by lia.
  change (u64 (0 - 1)) with (2 ^ 64 - 1).
  assert (Et : (if desired <? params.MinGasLimit
                then params.MinGasLimit else desired) = target).
  { subst target. destruct (Z.ltb_spec desired params.MinGasLimit); lia. }
  rewrite Et.
  assert (Ht : 0 <= target < 2 ^ 64) by (subst target; lia).
  split; [|split].
  - intros ->. destruct (Z.ltb_spec 0 target).
    + change (u64 (0 + (2 ^ 64 - 1))) with (2 ^ 64 - 1).
      destruct (Z.gtb_spec (2 ^ 64 - 1) target); lia.
    + destruct (Z.gtb_spec 0 target); lia.
  - intros Hpos Hpt. destruct (Z.ltb_spec parent target); [|lia].
    assert (E : u64 (parent + (2 ^ 64 - 1)) = parent - 1).
    { unfold u64. symmetry. apply Z.mod_unique with (q := 1); lia. }
    rewrite E. destruct (Z.gtb_spec (parent - 1) target); lia.
  - intros Htp. destruct (Z.ltb_spec parent target); [lia|].
    destruct (Z.gtb_spec parent target); [|lia].
    assert (E : u64 (parent - (2 ^ 64 - 1)) = parent + 1).
    { unfold u64. symmetry. apply Z.mod_unique with (q := -1); lia. }
    rewrite E. destruct (Z.ltb_spec (parent + 1) target); lia.
Qed.

Lemma CalcGasLimit_below_divisor_witness :
  core.CalcGasLimit (H := params.example_Constants) 1000 8000 = 999
  /\ core.CalcGasLimit (H := params.example_Constants) 0 8000 = 8000.
Proof.
  assert (Hc : params.wf_Constants params.example_Constants)
    by (vm_compute; repeat split; closed_cmp).
  assert (Hd : is_uint64 8000) by (vm_compute; split; closed_cmp).
  split.
  - assert (Hp : is_uint64 1000) by (vm_compute; split; closed_cmp).
    destruct (CalcGasLimit_below_divisor params.example_Constants 1000 8000
                Hc Hp Hd ltac:(vm_compute; closed_cmp)) as (_ & H & _).
    apply H; vm_compute; closed_cmp.
  - assert (Hp : is_uint64 0) by (vm_compute; split; closed_cmp).
    destruct (CalcGasLimit_below_divisor params.example_Constants 0 8000
                Hc Hp Hd ltac:(vm_compute; closed_cmp)) as (H & _).
    apply H. reflexivity.
Defined.

(** X19. Near the top of the [uint64] range the addition wraps around: when the
    parent limit is below the target and [parent + delta] no longer fits,
    the result is that sum less [2^64], which is below the parent limit. *)
Theorem CalcGasLimit_overflow (c : params.Constants) (parent desired : Z) :
  params.wf_Constants c -> is_uint64 parent -> is_uint64 desired ->
  params.GasLimitBoundDivisor <= parent ->
  parent < Z.max desired params.MinGasLimit ->
  2 ^ 64 <= parent + (parent / params.GasLimitBoundDivisor - 1) ->
  core.CalcGasLimit parent desired
  = parent + (parent / params.GasLimitBoundDivisor - 1) - 2 ^ 64
  /\ core.CalcGasLimit parent desired < parent.
Proof.
  intros Hc Hp Hd HD Hpt Hov.
  destruct (delta_no_wrap Hc parent HD Hp) as [Ed Hdelta].
  unfold core.CalcGasLimit. rewrite Ed.
  set (delta := parent / params.GasLimitBoundDivisor - 1) in *.
  assert (Et : (if desired <? params.MinGasLimit
                then params.MinGasLimit else desired)
               = Z.max desired params.MinGasLimit).
  { destruct (Z.ltb_spec desired params.MinGasLimit); lia. }
  rewrite Et. set (target := Z.max desired params.MinGasLimit) in *.
  destruct Hp as [Hp0 Hp1].
  assert (E : u64 (parent + delta) = parent + delta - 2 ^ 64).
  { unfold u64. symmetry. apply Z.mod_unique with (q := 1); lia. }
  rewrite E. destruct (Z.ltb_spec parent target); [|lia].
  destruct (Z.gtb_spec (parent + delta - 2 ^ 64) target); lia.
Qed.

Lemma CalcGasLimit_overflow_witness :
  core.CalcGasLimit (H := params.example_Constants) (2 ^ 64 - 2) (2 ^ 64 - 1)
  < 2 ^ 64 - 2.
Proof.
  apply CalcGasLimit_overflow; vm_compute; repeat split; closed_cmp.
Defined.

(** X20. From twice the divisor on, and as long as nothing wraps, every call
    brings the limit strictly closer to a target it has not reached. *)
Theorem CalcGasLimit_strict_progress (c : params.Constants)
  (parent desired : Z) :
  params.wf_Constants c -> is_uint64 parent -> is_uint64 desired ->
  2 * params.GasLimitBoundDivisor <= parent ->
  parent + parent / params.GasLimitBoundDivisor - 1 < 2 ^ 64 ->
  let target := Z.max desired params.MinGasLimit in
  parent <> target ->
  Z.abs (core.CalcGasLimit parent desired - target) < Z.abs (parent - target).
Proof.
  intros Hc Hp Hd HD Hov target Hne.
  assert (HD' : params.GasLimitBoundDivisor <= parent)
    by (destruct Hc as [[? ?] _]; lia).
  pose proof (CalcGasLimit_no_wrap Hc parent desired Hp Hd HD' Hov) as E.
  cbv zeta in E. fold target in E. rewrite E.
  assert (Hq : 2 <= parent / params.GasLimitBoundDivisor).
  { destruct Hc as [[? ?] _]. apply Z.div_le_lower_bound; lia. }
  destruct (Z.ltb_spec parent target); lia.
Qed.

Lemma CalcGasLimit_strict_progress_witness :
  Z.abs (core.CalcGasLimit (H := params.example_Constants) 1000000 2000000
         - 2000000) < Z.abs (1000000 - 2000000).
Proof.
  apply (CalcGasLimit_strict_progress params.example_Constants
           1000000 2000000);
    vm_compute; repeat split; closed_cmp.
Defined.

(** ** The checksummed form of an address *)

Lemma index_insert_ne (l : list Z) (i j : nat) (x : Z) :
  i <> j -> index (<[i := x]> l) j = index l j.
Proof.
  unfold index. revert i j; induction l as [|y l IH]; intros i j Hne.
  - now destruct i.
  - destruct i as [|i], j as [|j]; simpl; try reflexivity; try lia.
    apply IH. lia.
Qed.

Lemma index_insert_eq (l : list Z) (i : nat) (x : Z) :
  (i < length l)%nat -> index (<[i := x]> l) i = x.
Proof.
  unfold index. revert i; induction l as [|y l IH]; intros i Hi;
    simpl in Hi; [lia|].
  destruct i as [|i]; simpl; [reflexivity|]. apply IH. lia.
Qed.

Lemma index_beyond (l : list Z) (i : nat) :
  (length l <= i)%nat -> index l i = 0.
Proof. intros H. unfold index. now apply nth_overflow. Qed.

Lemma hex_Encode_length (src : list Z) :
  length (hex_Encode src) = (2 * length src)%nat.
Proof.
  induction src as [|v src IH]; simpl; [reflexivity|]. rewrite IH. lia.
Qed.

Lemma hex_digits_of_byte (v : Z) :
  is_byte v ->
  let hi := index hextable (Z.to_nat (Z.shiftr v 4)) in
  let lo := index hextable (Z.to_nat (Z.land v 15)) in
  (48 <= hi <= 57 \/ 97 <= hi <= 102) /\ (48 <= lo <= 57 \/ 97 <= lo <= 102).
Proof.
  intros Hv. cbv zeta.
  assert (T : forallb (fun v =>
      let ok d := ((48 <=? d) && (d <=? 57)) || ((97 <=? d) && (d <=? 102)) in
      ok (index hextable (Z.to_nat (Z.shiftr v 4)))
      && ok (index hextable (Z.to_nat (Z.land v 15)))) byte_values = true)
    by (vm_compute; reflexivity).
  pose proof (byte_values_forall _ T v Hv) as H. cbv zeta beta in H.
  apply andb_true_iff in H as [H1 H2].
  apply orb_true_iff in H1, H2.
  rewrite !andb_true_iff, !Z.leb_le in H1, H2. tauto.
Qed.

Lemma hex_Encode_digits (src : list Z) (j : nat) :
  Forall is_byte src -> (j < length (hex_Encode src))%nat ->
  48 <= index (hex_Encode src) j <= 57
  \/ 97 <= index (hex_Encode src) j <= 102.
Proof.
  intros Hb. revert j; induction Hb as [|v src Hv Hb IH]; intros j Hj;
    simpl in Hj; [lia|].
  destruct (hex_digits_of_byte v Hv) as [H1 H2].
  destruct j as [|[|j]]; [exact H1 | exact H2 |].
  apply (IH j). lia.
Qed.

(** What the loop of [checksumHex] does to a buffer whose bytes from
    index [i] on are lowercase hexadecimal digits: it keeps the length,
    and each byte either stays or, being a letter, loses 32. *)
Lemma checksum_loop_spec (hash : list Z) (k : nat) :
  forall (i : nat) (buf : list Z),
    (forall j, (i <= j < length buf)%nat ->
       48 <= index buf j <= 57 \/ 97 <= index buf j <= 102) ->
    length (checksum_loop hash buf k i) = length buf
    /\ forall j,
         index (checksum_loop hash buf k i) j = index buf j
         \/ ((i <= j)%nat /\ 97 <= index buf j <= 102
             /\ index (checksum_loop hash buf k i) j = index buf j - 32).
Proof.
  induction k as [|k IH]; intros i buf Hhex; simpl.
  - split; [reflexivity | intros j; now left].
  - match goal with
    | |- context [checksum_loop hash ?b k (S i)] => set (buf' := b)
    end.
    assert (Hlen : length buf' = length buf).
    { subst buf'. destruct (_ && _); [apply length_insert | reflexivity]. }
    assert (Hother : forall j, j <> i -> index buf' j = index buf j).
    { intros j Hj. subst buf'.
      destruct (_ && _); [now apply index_insert_ne | reflexivity]. }
    assert (Hat : index buf' i = index buf i
                  \/ (97 <= index buf i <= 102
                      /\ index buf' i = index buf i - 32)).
    { subst buf'. destruct (Z.gtb_spec (index buf i) 57) as [Hgt|];
        [|now left]. simpl andb. destruct (_ >? 7); [|now left].
      destruct (Nat.lt_ge_cases i (length buf)) as [Hi|Hi].
      - right. destruct (Hhex i) as [Hd|Hl]; [lia | lia |].
        split; [exact Hl|]. rewrite index_insert_eq by exact Hi.
        unfold to_byte. apply Z.mod_small. lia.
      - rewrite index_beyond in Hgt by exact Hi. lia. }
    destruct (IH (S i) buf') as [Hl Hj].
    { intros j Hrange. rewrite Hother by lia. apply Hhex. lia. }
    split; [now rewrite Hl|]. intros j.
    destruct (Nat.eq_dec j i) as [->|Hne].
    + destruct (Hj i) as [E | (Hle & _)]; [|lia]. rewrite E.
      destruct Hat as [E' | [Hl' E']]; [now left | right].
      repeat split; (lia || assumption).
    + destruct (Hj j) as [E | (Hle & Hrg & E)]; rewrite Hother in * by exact Hne.
      * now left.
      * right. repeat split; (lia || assumption).
Qed.

Section Checksum.
Context `{K : sha3.Keccak}.

(** X21. The checksummed form of an address is its lowercase form with some
    letters raised to upper case and nothing else changed: 42 bytes, the
    same "0x" in front, each byte either the one of the lowercase form or,
    where that is a letter from a to f, its capital; lowering the case
    gives the lowercase form back, whatever the digest is. *)
Theorem checksumHex_changes_case_only (a : Address) :
  wf_Address a ->
  length (Address_checksumHex a) = 42%nat
  /\ length (Address_hex a) = 42%nat
  /\ index (Address_checksumHex a) 0 = 48
  /\ index (Address_checksumHex a) 1 = 120
  /\ (forall j,
        index (Address_checksumHex a) j = index (Address_hex a) j
        \/ (97 <= index (Address_hex a) j <= 102
            /\ index (Address_checksumHex a) j
               = index (Address_hex a) j - 32))
  /\ map ToLower (Address_checksumHex a) = Address_hex a.
Proof.
  intros [Hlen Hb].
  assert (Hhexlen : length (Address_hex a) = 42%nat).
  { unfold Address_hex. rewrite length_app, hex_Encode_length, Hlen.
    reflexivity. }
  assert (Hdigits : forall j, (2 <= j < length (Address_hex a))%nat ->
            48 <= index (Address_hex a) j <= 57
            \/ 97 <= index (Address_hex a) j <= 102).
  { intros j Hj. rewrite Hhexlen in Hj. unfold Address_hex.
    destruct j as [|[|j]]; try lia.
    change (index ([48; 120] ++ hex_Encode a) (S (S j)))
      with (index (hex_Encode a) j).
    apply hex_Encode_digits; [exact Hb|].
    rewrite hex_Encode_length, Hlen. unfold AddressLength. lia. }
  unfold Address_checksumHex. cbv zeta.
  destruct (checksum_loop_spec
              (sha3.LegacyKeccak256 (skipn 2 (Address_hex a)))
              (length (Address_hex a) - 2) 2 (Address_hex a) Hdigits)
    as [Hl Hj].
  set (r := checksum_loop _ _ _ _) in *.
  split; [now rewrite Hl|]. split; [exact Hhexlen|].
  split; [destruct (Hj 0%nat) as [E | (Hle & _)]; [exact E | lia]|].
  split; [destruct (Hj 1%nat) as [E | (Hle & _)]; [exact E | lia]|].
  split.
  - intros j. destruct (Hj j) as [E | (_ & Hrg & E)]; [now left | now right].
  - apply nth_ext with (d := ToLower 0) (d' := 0);
      [now rewrite length_map|].
    intros j Hjlt. rewrite length_map, Hl, Hhexlen in Hjlt.
    rewrite map_nth. fold (index r j). fold (index (Address_hex a) j).
    assert (Hlow : ToLower (index (Address_hex a) j) = index (Address_hex a) j).
    { destruct j as [|[|j]]; [reflexivity | reflexivity |].
      destruct (Hdigits (S (S j))) as [Hd | Hd]; [lia | |];
        unfold ToLower;
        destruct (Z.leb_spec 65 (index (Address_hex a) (S (S j))));
        destruct (Z.leb_spec (index (Address_hex a) (S (S j))) 90);
        simpl; lia. }
    destruct (Hj j) as [E | (_ & Hrg & E)]; rewrite E; [exact Hlow|].
    unfold ToLower.
    destruct (Z.leb_spec 65 (index (Address_hex a) j - 32));
      destruct (Z.leb_spec (index (Address_hex a) j - 32) 90);
      simpl; lia.
Qed.

End Checksum.

Lemma checksumHex_changes_case_only_witness :
  map ToLower
      (Address_checksumHex (H := example.keccak_ones) (171 :: repeat 0 19))
  = Address_hex (171 :: repeat 0 19)
  /\ firstn 4 (Address_checksumHex (H := example.keccak_ones)
                 (171 :: repeat 0 19)) = [48; 120; 65; 66].
Proof.
  assert (Hwf : wf_Address (171 :: repeat 0 19)).
  { split; [reflexivity|]. repeat constructor; vm_compute; closed_cmp. }
  destruct (@checksumHex_changes_case_only example.keccak_ones
              (171 :: repeat 0 19) Hwf) as (_ & _ & _ & _ & _ & H).
  split; [exact H | reflexivity].
Defined.
